(** * RTNeural: dense, recurrent and softmax kernels, and the test runner

    A shallow embedding of
    - [RTNeural/dense/dense.h] (STL backend [Dense1], [Dense]; the [softmax]
      kernels of the STL and xsimd backends),
    - [RTNeural/lstm/lstm_eigen.tpp] ([LSTMLayer], and the Eigen [GRULayer]),
    - [tests/tests.cpp] ([TestConfig], [tests], [runTest]).

    Conventions.
    - The element type [T] of the templates is a type with the arithmetic the
      code uses ([Scalar]); no algebraic law is assumed unless a statement
      lists it as a hypothesis.
    - An operation whose behaviour is undefined in C++ (an index outside a
      buffer, a read of an indeterminate value, a remainder by zero) returns
      [None].
    - [size_t] counters are [nat]: every counter below is bounded by the
      length of a buffer. *)

From Stdlib Require Import ZArith Floats.PrimFloat.
From Stdlib Require Floats.FloatAxioms Floats.SpecFloat.
From stdpp Require Import gmap strings list.

Set Warnings "-inexact-float".

(** ** The element type *)

Class Scalar (T : Type) := {
  szero : T;              (* (T)0 *)
  sone : T;               (* (T)1 *)
  sadd : T → T → T;
  smul : T → T → T;
  sdiv : T → T → T;
  sopp : T → T;
  sexp : T → T;           (* std::exp *)
  stanh : T → T           (* std::tanh *)
}.

(** Exact integer arithmetic, for running the definitions on concrete
    inputs: powers of two stand for [exp] and the sign for [tanh]. *)
#[global] Instance Z_Scalar : Scalar Z := {|
  szero := 0%Z; sone := 1%Z;
  sadd := Z.add; smul := Z.mul; sdiv := Z.div; sopp := Z.opp;
  sexp := Z.pow 2; stanh := Z.sgn
|}.

Declare Scope scalar_scope.
Delimit Scope scalar_scope with sc.
Infix "⊕" := sadd (at level 50, left associativity) : scalar_scope.
Infix "⊗" := smul (at level 40, left associativity) : scalar_scope.
Infix "⊘" := sdiv (at level 40, left associativity) : scalar_scope.
Local Open Scope scalar_scope.

(** ** Counted loops *)

(** [for (size_t i = lo; i < lo + n; ++i) body] over a state [St]; the body
    may be undefined. *)
Fixpoint for_loop {St : Type} (body : nat → St → option St) (lo n : nat)
  (s : St) : option St :=
  match n with
  | O => Some s
  | S n' => body lo s ≫= for_loop body (S lo) n'
  end.

(** [for (size_t i = lo; i < bound; i += inc) body].  The recursion is on
    [fuel], a bound on the number of iterations: [None] when it runs out
    before the loop condition fails. *)
Fixpoint for_stride {St : Type} (body : nat → St → option St)
  (fuel lo bound inc : nat) (s : St) : option St :=
  if decide (lo < bound) then
    match fuel with
    | O => None
    | S fuel' => body lo s ≫= for_stride body fuel' (lo + inc) bound inc
    end
  else Some s.

(** ** Buffers *)

Section Buffers.
Context {A : Type}.

(** [buf[i] = v] on a raw buffer or a [std::vector]. *)
Definition store (buf : list A) (i : nat) (v : A) : option (list A) :=
  if decide (i < length buf) then Some (<[i := v]> buf) else None.

(** [vals[i][k]] on a [std::vector<std::vector<T>>] or a [T**]. *)
Definition at2 (vals : list (list A)) (i k : nat) : option A :=
  vals !! i ≫= (.!! k).
End Buffers.

(** ** Eigen matrices and vectors *)

Module Eigen.
(** A dynamic matrix is the table of its rows; [M(r, c)] is coefficient [c]
    of row [r]. *)
Abbreviation Matrix T := (list (list T)).
(** A column vector, [Matrix<T, Dynamic, 1>]. *)
Abbreviation Vector T := (list T).

Section Eigen.
Context {T : Type} `{Scalar T}.

Definition Zero (rows cols : nat) : Matrix T :=
  replicate rows (replicate cols szero).
Definition VZero (rows : nat) : Vector T := replicate rows szero.
Definition VOnes (rows : nat) : Vector T := replicate rows sone.

Definition has_dims (M : Matrix T) (rows cols : nat) : Prop :=
  length M = rows ∧ Forall (λ row, length row = cols) M.

(** [M(r, c)] read. *)
Definition coeff (M : Matrix T) (r c : nat) : option T :=
  M !! r ≫= (.!! c).

(** [M(r, c) = v]. *)
Definition coeff_set (M : Matrix T) (r c : nat) (v : T) : option (Matrix T) :=
  row ← M !! r;
  row' ← store row c v;
  Some (<[r := row']> M).

(** [std::fill(v.data(), v.data() + n, x)]. *)
Definition fill (v : Vector T) (n : nat) (x : T) : option (Vector T) :=
  if decide (n ≤ length v) then Some (replicate n x ++ drop n v) else None.

(** Coefficient-wise operations and the matrix-vector product. *)
Definition vadd (a b : Vector T) : Vector T := zip_with sadd a b.
Definition cwiseProduct (a b : Vector T) : Vector T := zip_with smul a b.
Definition dot (a b : Vector T) : T := foldl sadd szero (zip_with smul a b).
Definition matvec (M : Matrix T) (x : Vector T) : Vector T :=
  (λ row, dot row x) <$> M.
End Eigen.
End Eigen.

(** ** [LSTMLayer] (lstm_eigen.tpp) *)

Module LSTM.
Section LSTM.
Context {T : Type} `{Scalar T}.
Import Eigen.

Record LSTMLayer := {
  in_size : nat; out_size : nat;
  Wf : Matrix T; Wi : Matrix T;
  Wo : Matrix T; Wc : Matrix T;
  Uf : Matrix T; Ui : Matrix T;
  Uo : Matrix T; Uc : Matrix T;
  bf : Vector T; bi : Vector T;
  bo : Vector T; bc : Vector T;
  fVec : Vector T; iVec : Vector T; oVec : Vector T;
  ctVec : Vector T; cVec : Vector T;
  inVec : Vector T; ht1 : Vector T; ct1 : Vector T
}.

(** [LSTMLayer(size_t in_size, size_t out_size)]. *)
Definition ctor (in_size out_size : nat) : LSTMLayer := {|
  in_size := in_size; out_size := out_size;
  Wf := Zero out_size in_size; Wi := Zero out_size in_size;
  Wo := Zero out_size in_size; Wc := Zero out_size in_size;
  Uf := Zero out_size out_size; Ui := Zero out_size out_size;
  Uo := Zero out_size out_size; Uc := Zero out_size out_size;
  bf := VZero out_size; bi := VZero out_size;
  bo := VZero out_size; bc := VZero out_size;
  fVec := VZero out_size; iVec := VZero out_size; oVec := VZero out_size;
  ctVec := VZero out_size; cVec := VZero out_size;
  inVec := VZero out_size; ht1 := VZero out_size; ct1 := VZero out_size
|}.

(** [LSTMLayer(const LSTMLayer& other)]: delegates to the sizes. *)
Definition copy (other : LSTMLayer) : LSTMLayer :=
  ctor (in_size other) (out_size other).

Definition with_W (l : LSTMLayer) (wi wf wc wo : Matrix T) : LSTMLayer := {|
  in_size := in_size l; out_size := out_size l;
  Wf := wf; Wi := wi; Wo := wo; Wc := wc;
  Uf := Uf l; Ui := Ui l; Uo := Uo l; Uc := Uc l;
  bf := bf l; bi := bi l; bo := bo l; bc := bc l;
  fVec := fVec l; iVec := iVec l; oVec := oVec l;
  ctVec := ctVec l; cVec := cVec l;
  inVec := inVec l; ht1 := ht1 l; ct1 := ct1 l
|}.

Definition with_U (l : LSTMLayer) (ui uf uc uo : Matrix T) : LSTMLayer := {|
  in_size := in_size l; out_size := out_size l;
  Wf := Wf l; Wi := Wi l; Wo := Wo l; Wc := Wc l;
  Uf := uf; Ui := ui; Uo := uo; Uc := uc;
  bf := bf l; bi := bi l; bo := bo l; bc := bc l;
  fVec := fVec l; iVec := iVec l; oVec := oVec l;
  ctVec := ctVec l; cVec := cVec l;
  inVec := inVec l; ht1 := ht1 l; ct1 := ct1 l
|}.

Definition with_b (l : LSTMLayer) (vi vf vc vo : Vector T) : LSTMLayer := {|
  in_size := in_size l; out_size := out_size l;
  Wf := Wf l; Wi := Wi l; Wo := Wo l; Wc := Wc l;
  Uf := Uf l; Ui := Ui l; Uo := Uo l; Uc := Uc l;
  bf := vf; bi := vi; bo := vo; bc := vc;
  fVec := fVec l; iVec := iVec l; oVec := oVec l;
  ctVec := ctVec l; cVec := cVec l;
  inVec := inVec l; ht1 := ht1 l; ct1 := ct1 l
|}.

Definition with_state (l : LSTMLayer) (h c : Vector T) : LSTMLayer := {|
  in_size := in_size l; out_size := out_size l;
  Wf := Wf l; Wi := Wi l; Wo := Wo l; Wc := Wc l;
  Uf := Uf l; Ui := Ui l; Uo := Uo l; Uc := Uc l;
  bf := bf l; bi := bi l; bo := bo l; bc := bc l;
  fVec := fVec l; iVec := iVec l; oVec := oVec l;
  ctVec := ctVec l; cVec := cVec l;
  inVec := inVec l; ht1 := h; ct1 := c
|}.

(** [reset()]: two [std::fill] calls over the first [out_size]
    coefficients of [ht1] and [ct1]. *)
Definition reset (l : LSTMLayer) : option LSTMLayer :=
  h ← fill (ht1 l) (out_size l) szero;
  c ← fill (ct1 l) (out_size l) szero;
  Some (with_state l h c).

(** [setWVals(const std::vector<std::vector<T>>& wVals)]. *)
Definition setWVals (wVals : list (list T)) (l : LSTMLayer)
  : option LSTMLayer :=
  for_loop (λ i, for_loop (λ k l,
      v ← at2 wVals i k;
      wi ← coeff_set (Wi l) k i v;
      v ← at2 wVals i (k + out_size l);
      wf ← coeff_set (Wf l) k i v;
      v ← at2 wVals i (k + out_size l * 2);
      wc ← coeff_set (Wc l) k i v;
      v ← at2 wVals i (k + out_size l * 3);
      wo ← coeff_set (Wo l) k i v;
      Some (with_W l wi wf wc wo)) 0 (out_size l)) 0 (in_size l) l.

(** [setUVals(const std::vector<std::vector<T>>& uVals)]. *)
Definition setUVals (uVals : list (list T)) (l : LSTMLayer)
  : option LSTMLayer :=
  for_loop (λ i, for_loop (λ k l,
      v ← at2 uVals i k;
      ui ← coeff_set (Ui l) k i v;
      v ← at2 uVals i (k + out_size l);
      uf ← coeff_set (Uf l) k i v;
      v ← at2 uVals i (k + out_size l * 2);
      uc ← coeff_set (Uc l) k i v;
      v ← at2 uVals i (k + out_size l * 3);
      uo ← coeff_set (Uo l) k i v;
      Some (with_U l ui uf uc uo)) 0 (out_size l)) 0 (out_size l) l.

(** [setBVals(const std::vector<T>& bVals)]. *)
Definition setBVals (bVals : list T) (l : LSTMLayer) : option LSTMLayer :=
  for_loop (λ k l,
      v ← bVals !! k;
      vi ← store (bi l) k v;
      v ← bVals !! (k + out_size l);
      vf ← store (bf l) k v;
      v ← bVals !! (k + out_size l * 2);
      vc ← store (bc l) k v;
      v ← bVals !! (k + out_size l * 3);
      vo ← store (bo l) k v;
      Some (with_b l vi vf vc vo)) 0 (out_size l) l.

Definition sigmoid (v : Vector T) : Vector T :=
  (λ x, sone ⊘ (sone ⊕ sexp (sopp x))) <$> v.

(** Modelled from the spec: [LSTMLayer<T>::forward], whose definition
    (lstm_eigen.h) is not among the sources.  Section 4.5 gives the step:
    [i = sigmoid(W_i·x + U_i·h_prev + b_i)], likewise [f] and [o],
    [c~ = tanh(W_c·x + U_c·h_prev + b_c)], [c = f ⊙ c_prev + i ⊙ c~],
    [h = o ⊙ tanh(c)]; [h] is returned and persisted with [c].  The gate
    activations are kept in the scratch vectors the constructor sizes. *)
Definition forward (x : Vector T) (l : LSTMLayer) : LSTMLayer * Vector T :=
  let gate W U b := vadd (vadd (matvec W x) (matvec U (ht1 l))) b in
  let i := sigmoid (gate (Wi l) (Ui l) (bi l)) in
  let f := sigmoid (gate (Wf l) (Uf l) (bf l)) in
  let o := sigmoid (gate (Wo l) (Uo l) (bo l)) in
  let ct := stanh <$> gate (Wc l) (Uc l) (bc l) in
  let c := vadd (cwiseProduct f (ct1 l)) (cwiseProduct i ct) in
  let h := cwiseProduct o (stanh <$> c) in
  ({| in_size := in_size l; out_size := out_size l;
      Wf := Wf l; Wi := Wi l; Wo := Wo l; Wc := Wc l;
      Uf := Uf l; Ui := Ui l; Uo := Uo l; Uc := Uc l;
      bf := bf l; bi := bi l; bo := bo l; bc := bc l;
      fVec := f; iVec := i; oVec := o; ctVec := ct; cVec := c;
      inVec := x; ht1 := h; ct1 := c |}, h).
End LSTM.
Arguments LSTMLayer T : clear implicits.
End LSTM.

(** ** [GRULayer] (the Eigen backend, second part of lstm_eigen.tpp) *)

Module GRU.
Section GRU.
Context {T : Type} `{Scalar T}.
Import Eigen.

Record GRULayer := {
  in_size : nat; out_size : nat;
  wVec_z : Matrix T; wVec_r : Matrix T; wVec_c : Matrix T;
  uVec_z : Matrix T; uVec_r : Matrix T; uVec_c : Matrix T;
  bVec_z : Matrix T; bVec_r : Matrix T; bVec_c : Matrix T;
  ht1 : Vector T; zVec : Vector T; rVec : Vector T; cVec : Vector T;
  inVec : Vector T; ones : Vector T
}.

(** [GRULayer(size_t in_size, size_t out_size)]. *)
Definition ctor (in_size out_size : nat) : GRULayer := {|
  in_size := in_size; out_size := out_size;
  wVec_z := Zero out_size in_size; wVec_r := Zero out_size in_size;
  wVec_c := Zero out_size in_size;
  uVec_z := Zero out_size out_size; uVec_r := Zero out_size out_size;
  uVec_c := Zero out_size out_size;
  bVec_z := Zero out_size 2; bVec_r := Zero out_size 2;
  bVec_c := Zero out_size 2;
  ht1 := VZero out_size; zVec := VZero out_size; rVec := VZero out_size;
  cVec := VZero out_size;
  inVec := VZero in_size; ones := VOnes out_size
|}.

(** [GRULayer(const GRULayer<T>& other)]. *)
Definition copy (other : GRULayer) : GRULayer :=
  ctor (in_size other) (out_size other).

Definition with_w (l : GRULayer) (wz wr wc : Matrix T) : GRULayer := {|
  in_size := in_size l; out_size := out_size l;
  wVec_z := wz; wVec_r := wr; wVec_c := wc;
  uVec_z := uVec_z l; uVec_r := uVec_r l; uVec_c := uVec_c l;
  bVec_z := bVec_z l; bVec_r := bVec_r l; bVec_c := bVec_c l;
  ht1 := ht1 l; zVec := zVec l; rVec := rVec l; cVec := cVec l;
  inVec := inVec l; ones := ones l
|}.

Definition with_u (l : GRULayer) (uz ur uc : Matrix T) : GRULayer := {|
  in_size := in_size l; out_size := out_size l;
  wVec_z := wVec_z l; wVec_r := wVec_r l; wVec_c := wVec_c l;
  uVec_z := uz; uVec_r := ur; uVec_c := uc;
  bVec_z := bVec_z l; bVec_r := bVec_r l; bVec_c := bVec_c l;
  ht1 := ht1 l; zVec := zVec l; rVec := rVec l; cVec := cVec l;
  inVec := inVec l; ones := ones l
|}.

Definition with_b (l : GRULayer) (bz br bc : Matrix T) : GRULayer := {|
  in_size := in_size l; out_size := out_size l;
  wVec_z := wVec_z l; wVec_r := wVec_r l; wVec_c := wVec_c l;
  uVec_z := uVec_z l; uVec_r := uVec_r l; uVec_c := uVec_c l;
  bVec_z := bz; bVec_r := br; bVec_c := bc;
  ht1 := ht1 l; zVec := zVec l; rVec := rVec l; cVec := cVec l;
  inVec := inVec l; ones := ones l
|}.

(** [setWVals(const std::vector<std::vector<T>>& wVals)]; the overload
    on [T**] has the same body. *)
Definition setWVals (wVals : list (list T)) (l : GRULayer)
  : option GRULayer :=
  for_loop (λ i, for_loop (λ k l,
      v ← at2 wVals i k;
      wz ← coeff_set (wVec_z l) k i v;
      v ← at2 wVals i (k + out_size l);
      wr ← coeff_set (wVec_r l) k i v;
      v ← at2 wVals i (k + out_size l * 2);
      wc ← coeff_set (wVec_c l) k i v;
      Some (with_w l wz wr wc)) 0 (out_size l)) 0 (in_size l) l.

(** [setUVals(const std::vector<std::vector<T>>& uVals)]; likewise. *)
Definition setUVals (uVals : list (list T)) (l : GRULayer)
  : option GRULayer :=
  for_loop (λ i, for_loop (λ k l,
      v ← at2 uVals i k;
      uz ← coeff_set (uVec_z l) k i v;
      v ← at2 uVals i (k + out_size l);
      ur ← coeff_set (uVec_r l) k i v;
      v ← at2 uVals i (k + out_size l * 2);
      uc ← coeff_set (uVec_c l) k i v;
      Some (with_u l uz ur uc)) 0 (out_size l)) 0 (out_size l) l.

(** [setBVals(const std::vector<std::vector<T>>& bVals)]; likewise. *)
Definition setBVals (bVals : list (list T)) (l : GRULayer)
  : option GRULayer :=
  for_loop (λ i, for_loop (λ k l,
      v ← at2 bVals i k;
      bz ← coeff_set (bVec_z l) k i v;
      v ← at2 bVals i (k + out_size l);
      br ← coeff_set (bVec_r l) k i v;
      v ← at2 bVals i (k + out_size l * 2);
      bc ← coeff_set (bVec_c l) k i v;
      Some (with_b l bz br bc)) 0 (out_size l)) 0 2 l.

(** The gate a getter selects for the flat index [k], then the read at
    [(k % out_size, i)]. *)
Definition getVal (z r c : Matrix T) (out_size i k : nat) : option T :=
  let set := z in
  let set := if decide (2 * out_size < k) then c
             else if decide (out_size < k) then r
             else set in
  if decide (out_size = 0) then None
  else coeff set (k mod out_size) i.

(** [getWVal(size_t i, size_t k)]. *)
Definition getWVal (l : GRULayer) (i k : nat) : option T :=
  getVal (wVec_z l) (wVec_r l) (wVec_c l) (out_size l) i k.
(** [getUVal(size_t i, size_t k)]. *)
Definition getUVal (l : GRULayer) (i k : nat) : option T :=
  getVal (uVec_z l) (uVec_r l) (uVec_c l) (out_size l) i k.
(** [getBVal(size_t i, size_t k)]. *)
Definition getBVal (l : GRULayer) (i k : nat) : option T :=
  getVal (bVec_z l) (bVec_r l) (bVec_c l) (out_size l) i k.
End GRU.
Arguments GRULayer T : clear implicits.
End GRU.

(** ** [Dense1] and [Dense] (dense.h, STL backend) *)

Module Dense1.
Section Dense1.
Context {T : Type} `{Scalar T}.

(** [bias] and the cells of [weights] are [None] while their value is
    indeterminate. *)
Record Dense1 := {
  in_size : nat;
  bias : option T;
  weights : list (option T)
}.

(** [Dense1(size_t in_size)]: [weights = new T[in_size]] leaves the
    cells default-initialised and [bias] has no initialiser. *)
Definition ctor (in_size : nat) : Dense1 :=
  {| in_size := in_size; bias := None; weights := replicate in_size None |}.

(** [std::inner_product(weights, weights + in_size, input, (T)0) + bias]. *)
Definition forward (input : list T) (d : Dense1) : option T :=
  acc ← for_loop (λ j acc,
           w ← mjoin (weights d !! j);
           x ← input !! j;
           Some (acc ⊕ w ⊗ x)) 0 (in_size d) szero;
  b ← bias d;
  Some (acc ⊕ b).

Definition setWeights (newWeights : list T) (d : Dense1) : option Dense1 :=
  w ← for_loop (λ i w,
         v ← newWeights !! i;
         store w i (Some v)) 0 (in_size d) (weights d);
  Some {| in_size := in_size d; bias := bias d; weights := w |}.

Definition setBias (b : T) (d : Dense1) : Dense1 :=
  {| in_size := in_size d; bias := Some b; weights := weights d |}.

Definition getWeight (d : Dense1) (i : nat) : option T :=
  mjoin (weights d !! i).
Definition getBias (d : Dense1) : option T := bias d.
End Dense1.
Arguments Dense1 T : clear implicits.
End Dense1.

Module Dense.
Section Dense.
Context {T : Type} `{Scalar T}.

Record Dense := {
  in_size : nat; out_size : nat;
  subLayers : list (Dense1.Dense1 T)
}.

(** [Dense(size_t in_size, size_t out_size)]: one [Dense1] per output. *)
Definition ctor (in_size out_size : nat) : Dense := {|
  in_size := in_size; out_size := out_size;
  subLayers := replicate out_size (Dense1.ctor in_size)
|}.

(** [Dense(const Dense& other)]. *)
Definition copy (other : Dense) : Dense :=
  ctor (in_size other) (out_size other).

(** [forward(const T* input, T* out)]; the result is the [out] buffer. *)
Definition forward (input out : list T) (d : Dense) : option (list T) :=
  for_loop (λ i out,
      sub ← subLayers d !! i;
      y ← Dense1.forward input sub;
      store out i y) 0 (out_size d) out.

(** [setWeights(const std::vector<std::vector<T>>& newWeights)]; the
    overload on [T**] has the same body. *)
Definition setWeights (newWeights : list (list T)) (d : Dense)
  : option Dense :=
  subs ← for_loop (λ i subs,
            row ← newWeights !! i;
            sub ← subs !! i;
            sub' ← Dense1.setWeights row sub;
            store subs i sub') 0 (out_size d) (subLayers d);
  Some {| in_size := in_size d; out_size := out_size d; subLayers := subs |}.

(** [setBias(T* b)]. *)
Definition setBias (b : list T) (d : Dense) : option Dense :=
  subs ← for_loop (λ i subs,
            v ← b !! i;
            sub ← subs !! i;
            store subs i (Dense1.setBias v sub)) 0 (out_size d)
            (subLayers d);
  Some {| in_size := in_size d; out_size := out_size d; subLayers := subs |}.

Definition getWeight (d : Dense) (i k : nat) : option T :=
  sub ← subLayers d !! i; Dense1.getWeight sub k.
Definition getBias (d : Dense) (i : nat) : option T :=
  sub ← subLayers d !! i; Dense1.getBias sub.
End Dense.
Arguments Dense T : clear implicits.
End Dense.

(** ** Copy assignment *)

(** The three layers define
    [L& operator=(const L& other) { return *this = L(other); }]:
    the body builds a temporary with the copy constructor and assigns it to
    [*this] with the only assignment operator the class has, which is this
    one; what the nested activation returns is returned.

    [assign_returns copy this other result]: the activation of [operator=]
    on [this] with argument [other] returns [result]. *)
Inductive assign_returns {L : Type} (copy : L → L) : L → L → L → Prop :=
| assign_nested this other result :
    assign_returns copy this (copy other) result →
    assign_returns copy this other result.

(** The same operator as a function, with [depth] bounding the nesting of
    activations: [None] when no activation returns within the bound. *)
Fixpoint copy_assign {L : Type} (copy : L → L) (depth : nat) (this other : L)
  : option L :=
  match depth with
  | O => None
  | S depth' => copy_assign copy depth' this (copy other)
  end.

Definition Dense_assign {T : Type} `{Scalar T} :=
  copy_assign (Dense.copy (T:=T)).
Definition LSTM_assign {T : Type} `{Scalar T} :=
  copy_assign (LSTM.copy (T:=T)).
Definition GRU_assign {T : Type} `{Scalar T} :=
  copy_assign (GRU.copy (T:=T)).

(** ** [softmax] (common.h part of dense.h) *)

(** The STL backend. *)
Module STL.
Section STL.
Context {T : Type} `{Scalar T}.

(** [softmax(const T* input, T* out, size_t size)], on distinct buffers;
    the result is the [out] buffer. *)
Definition softmax (input out : list T) (size : nat) : option (list T) :=
  '(out, exp_sum) ← for_loop (λ i '(out, exp_sum),
      x ← input !! i;
      out ← store out i (sexp x);
      y ← out !! i;
      Some (out, exp_sum ⊕ y)) 0 size (out, szero);
  for_loop (λ i out,
      y ← out !! i;
      store out i (y ⊘ exp_sum)) 0 size out.
End STL.
End STL.

(** The xsimd backend.  A batch of [inc = b_type::size] lanes is the list
    of its lanes; the batch operations of the library act lane by lane and
    [hadd] adds the lanes up. *)
Module XSIMD.
Section XSIMD.
Context {T : Type} `{Scalar T}.
Variable inc : nat.

Definition load_aligned (buf : list T) (i : nat) : option (list T) :=
  if decide (i + inc ≤ length buf) then Some (take inc (drop i buf))
  else None.

Definition store_aligned (buf : list T) (i : nat) (vec : list T)
  : option (list T) :=
  if decide (i + length vec ≤ length buf)
  then Some (take i buf ++ vec ++ drop (i + length vec) buf)
  else None.

Definition exp (vec : list T) : list T := sexp <$> vec.
Definition hadd (vec : list T) : T := foldl sadd szero vec.
Definition div_scalar (vec : list T) (s : T) : list T :=
  (λ y, y ⊘ s) <$> vec.

(** [softmax(const T* in, T* out, size_t dim)], on distinct buffers. *)
Definition softmax (input out : list T) (dim : nat) : option (list T) :=
  if decide (inc = 0) then None else
  let vec_size := dim - dim mod inc in
  '(out, exp_sum) ← for_stride (λ i '(out, exp_sum),
      x_vec ← load_aligned input i;
      let y_vec := exp x_vec in
      let exp_sum := exp_sum ⊕ hadd y_vec in
      out ← store_aligned out i y_vec;
      Some (out, exp_sum)) vec_size 0 vec_size inc (out, szero);
  '(out, exp_sum) ← for_loop (λ i '(out, exp_sum),
      x ← input !! i;
      out ← store out i (sexp x);
      y ← out !! i;
      Some (out, exp_sum ⊕ y)) vec_size (dim - vec_size) (out, exp_sum);
  out ← for_stride (λ i out,
      x_vec ← load_aligned out i;
      let y_vec := div_scalar x_vec exp_sum in
      store_aligned out i y_vec) vec_size 0 vec_size inc out;
  for_loop (λ i out,
      y ← out !! i;
      store out i (y ⊘ exp_sum)) vec_size (dim - vec_size) out.

(** [vCopy(const T* in, T* out, size_t dim)], on distinct buffers. *)
Definition vCopy (input out : list T) (dim : nat) : option (list T) :=
  if decide (inc = 0) then None else
  let vec_size := dim - dim mod inc in
  out ← for_stride (λ i out,
      vec ← load_aligned input i;
      store_aligned out i vec) vec_size 0 vec_size inc out;
  for_loop (λ i out,
      x ← input !! i;
      store out i x) vec_size (dim - vec_size) out.

(** [xsimd::tanh] on a batch. *)
Definition tanh_batch (vec : list T) : list T := stanh <$> vec.

(** [tanh(const T* in, T* out, size_t dim)], on distinct buffers. *)
Definition tanh (input out : list T) (dim : nat) : option (list T) :=
  if decide (inc = 0) then None else
  let vec_size := dim - dim mod inc in
  out ← for_stride (λ i out,
      x_vec ← load_aligned input i;
      let y_vec := tanh_batch x_vec in
      store_aligned out i y_vec) vec_size 0 vec_size inc out;
  for_loop (λ i out,
      x ← input !! i;
      store out i (stanh x)) vec_size (dim - vec_size) out.
End XSIMD.
End XSIMD.

(** ** The sums of the specification *)

Section Sums.
Context {T : Type} `{Scalar T}.

(** [Σ_{j < n} f j], the terms added in the order of their index. *)
Fixpoint big_sum (n : nat) (f : nat → T) : T :=
  match n with
  | O => szero
  | S m => big_sum m f ⊕ f m
  end.

(** The dot product of the first [n] values of a weight row and an
    input: [Σ_{j < n} w[j] * x[j]]. *)
Definition dot_sum (n : nat) (w x : list T) : T :=
  big_sum n (λ j, nth j w szero ⊗ nth j x szero).

(** [softmax(x)_i = e^{x_i} / Σ_{j < dim} e^{x_j}]. *)
Definition softmax_spec (x : list T) (dim i : nat) : T :=
  sexp (nth i x szero) ⊘ big_sum dim (λ j, sexp (nth j x szero)).
End Sums.

(** ** The test runner (tests.cpp) *)

Module Tests.
Record TestConfig := {
  name : string;
  model_file : string;
  x_data_file : string;
  y_data_file : string;
  threshold : float
}.

(** [static std::map<std::string, TestConfig> tests]. *)
Definition tests : gmap string TestConfig := list_to_map [
  ("conv1d", {| name := "CONV1D"; model_file := "models/conv.json";
                x_data_file := "test_data/conv_x_python.csv";
                y_data_file := "test_data/conv_y_python.csv";
                threshold := 1.0e-6 |});
  ("dense", {| name := "DENSE"; model_file := "models/dense.json";
               x_data_file := "test_data/dense_x_python.csv";
               y_data_file := "test_data/dense_y_python.csv";
               threshold := 2.0e-8 |});
  ("gru", {| name := "GRU"; model_file := "models/gru.json";
             x_data_file := "test_data/gru_x_python.csv";
             y_data_file := "test_data/gru_y_python.csv";
             threshold := 5.0e-6 |});
  ("lstm", {| name := "LSTM"; model_file := "models/lstm.json";
              x_data_file := "test_data/lstm_x_python.csv";
              y_data_file := "test_data/lstm_y_python.csv";
              threshold := 1.0e-6 |})
].

(** What is sent to [std::cout]. *)
Inductive cout_item :=
| Str (s : string)
| Num (n : nat)
| Flt (x : float)
| Endl.

(** [std::max(a, b)] is [(a < b) ? b : a]. *)
Definition fmax (a b : float) : float := if PrimFloat.ltb a b then b else a.

Section runTest.
(** The model built by [json_parser::parseJson] and the columns read by
    [load_csv::loadFile] come from outside this file: the model is a
    state with [reset] and [forward], [xData] and [yRefData] are the
    loaded sequences.  [TestType] is [double]. *)
Context {Model : Type}.
Variable reset : Model → Model.
Variable forward : list float → Model → Model * float.

(** The first loop: [yData[n] = model->forward(input)]. *)
Definition run_model (model : Model) (xData : list float)
  : option (Model * list float) :=
  for_loop (λ n '(model, yData),
      x ← xData !! n;
      let input := [x] in
      let '(model, y) := forward input model in
      yData ← store yData n y;
      Some (model, yData)) 0 (length xData)
    (model, replicate (length xData) 0%float).

(** The second loop: the error count and the largest counted error. *)
Definition count_errors (threshold : float) (size : nat)
  (yData yRefData : list float) : option (nat * float) :=
  for_loop (λ n '(nErrs, max_error),
      y ← yData !! n;
      r ← yRefData !! n;
      let err := PrimFloat.abs (PrimFloat.sub y r) in
      if PrimFloat.ltb threshold err
      then Some (S nErrs, fmax err max_error)
      else Some (nErrs, max_error)) 0 size (0, 0%float).

(** [runTest<TestType>(test)]: the exit code and the output. *)
Definition runTest (test : TestConfig) (model : Model)
  (xData yRefData : list float) : option (Z * list cout_item) :=
  let out := [Str "TESTING "; Str (name test);
              Str " IMPLEMENTATION..."; Endl] in
  let model := reset model in
  '(model, yData) ← run_model model xData;
  '(nErrs, max_error) ←
    count_errors (threshold test) (length xData) yData yRefData;
  if decide (0 < nErrs)
  then Some (1%Z, out ++ [Str "FAIL: "; Num nErrs; Str " errors!"; Endl;
                          Str "Maximum error: "; Flt max_error; Endl])
  else Some (0%Z, out ++ [Str "SUCCESS"; Endl]).
End runTest.

(** The entries of a [std::map<std::string, _>] in the order a range-for
    visits them: increasing keys. *)
Fixpoint insert_by_key (e : string * TestConfig)
  (l : list (string * TestConfig)) : list (string * TestConfig) :=
  match l with
  | [] => [e]
  | e' :: l' =>
      if String.leb e.1 e'.1 then e :: l else e' :: insert_by_key e l'
  end.

Definition in_key_order (m : gmap string TestConfig)
  : list (string * TestConfig) :=
  foldr insert_by_key [] (map_to_list m).

(** [help()]. *)
Definition help : list cout_item :=
  [Str "RTNeural test suite:"; Endl;
   Str "Usage: rtneural_tests <test_type>"; Endl;
   Endl;
   Str "Available test types are:"; Endl;
   Str "    all"; Endl;
   Str "    util"; Endl;
   Str "    model"; Endl]
  ++ flat_map (λ testConfig, [Str "    "; Str testConfig.1; Endl])
       (in_key_order tests).

Section main.
(** [util_test()] and [model_test::model_test()] are defined in other
    files: [util_test] is what the first prints, [model_test] what the
    second returns and prints.  [parseJson] and [loadFile] give the model
    and the column read from the file of a given name. *)
Context {Model : Type}.
Variable reset : Model → Model.
Variable forward : list float → Model → Model * float.
Variable parseJson : string → Model.
Variable loadFile : string → list float.
Variable util_test : list cout_item.
Variable model_test : Z * list cout_item.

(** [runTest<TestType>(test)] with the files of the configuration. *)
Definition runTest_files (test : TestConfig) : option (Z * list cout_item) :=
  runTest reset forward test (parseJson (model_file test))
    (loadFile (x_data_file test)) (loadFile (y_data_file test)).

(** [main(argc, argv)], with [argc] the length of [argv]: the exit code
    and the output. *)
Definition main (argv : list string) : option (Z * list cout_item) :=
  if decide (length argv ≠ 2) then Some (1%Z, help) else
  arg ← argv !! 1;
  if decide (arg = "--help") then Some (1%Z, help)
  else if decide (arg = "all") then
    let out := util_test in
    let result := 0%Z in
    let '(result, out) := (Z.lor result model_test.1, out ++ model_test.2) in
    foldl (λ acc testConfig,
             '(result, out) ← acc;
             '(r, o) ← runTest_files testConfig.2;
             Some (Z.lor result r, out ++ o))
          (Some (result, out)) (in_key_order tests)
  else if decide (arg = "util") then Some (0%Z, util_test)
  else if decide (arg = "model") then Some model_test
  else if decide (is_Some (tests !! arg)) then
    test ← tests !! arg; runTest_files test
  else Some (1%Z, [Str "Test: "; Str arg; Str " not found!"; Endl]).
End main.
End Tests.

(** * Predicates and functions of the statements *)

(** ** Shapes of the buffers and progress of a load *)

Section BufferSpec.
Context {T : Type}.
Implicit Types (M : list (list T)) (vals : list (list T)).

(** [vals] has at least [n] rows of at least [m] values each. *)
Definition covers vals (n m : nat) : Prop :=
  ∀ i, i < n → ∃ row, vals !! i = Some row ∧ m ≤ length row.

(** Progress of a slice load: every coefficient of the columns before
    [I], and of the rows before [K] in column [I], holds the value of the
    combined buffer at the gate's offset. *)
Definition filled vals (off rows : nat) M (I K : nat) : Prop :=
  ∀ i k, k < rows → i < I ∨ (i = I ∧ k < K) →
    Eigen.coeff M k i = at2 vals i (k + off).
End BufferSpec.

(** ** LSTM: sizes, loaded gates, histories *)

Section LSTMSpec.
Context {T : Type} `{Scalar T}.
Import Eigen LSTM.
Implicit Types (l : LSTMLayer T) (vals wVals uVals : list (list T)).

(** Every buffer has the size the constructor gave it. *)
Record LSTM_wf l : Prop := {
  wf_Wi : has_dims (Wi l) (out_size l) (in_size l);
  wf_Wf : has_dims (Wf l) (out_size l) (in_size l);
  wf_Wc : has_dims (Wc l) (out_size l) (in_size l);
  wf_Wo : has_dims (Wo l) (out_size l) (in_size l);
  wf_Ui : has_dims (Ui l) (out_size l) (out_size l);
  wf_Uf : has_dims (Uf l) (out_size l) (out_size l);
  wf_Uc : has_dims (Uc l) (out_size l) (out_size l);
  wf_Uo : has_dims (Uo l) (out_size l) (out_size l);
  wf_bi : length (bi l) = out_size l;
  wf_bf : length (bf l) = out_size l;
  wf_bc : length (bc l) = out_size l;
  wf_bo : length (bo l) = out_size l;
  wf_ht1 : length (ht1 l) = out_size l;
  wf_ct1 : length (ct1 l) = out_size l
}.

(** The loop invariant shared by the four-gate loaders: four matrices of
    [rows] by [cols] coefficients, loaded up to column [I], row [K]. *)
Definition loaded4 vals rows cols (I K : nat) (m1 m2 m3 m4 : Matrix T)
  : Prop :=
  (has_dims m1 rows cols ∧ filled vals 0 rows m1 I K) ∧
  (has_dims m2 rows cols ∧ filled vals rows rows m2 I K) ∧
  (has_dims m3 rows cols ∧ filled vals (rows * 2) rows m3 I K) ∧
  (has_dims m4 rows cols ∧ filled vals (rows * 3) rows m4 I K).

(** Progress of a bias load: the first [K] coefficients hold the values
    of the combined buffer at the gate's offset. *)
Definition vfilled (bVals : list T) (off : nat) (v : Vector T) (K : nat)
  : Prop :=
  ∀ k, k < K → v !! k = bVals !! (k + off).

Definition vloaded4 (bVals : list T) rows (K : nat) (v1 v2 v3 v4 : Vector T)
  : Prop :=
  (length v1 = rows ∧ vfilled bVals 0 v1 K) ∧
  (length v2 = rows ∧ vfilled bVals rows v2 K) ∧
  (length v3 = rows ∧ vfilled bVals (rows * 2) v3 K) ∧
  (length v4 = rows ∧ vfilled bVals (rows * 3) v4 K).

(** [M(r, c)] holds the value read from [src], and that read is
    defined. *)
Definition holds (M : Matrix T) (r c : nat) (src : option T) : Prop :=
  is_Some src ∧ coeff M r c = src.
Definition vholds (v : Vector T) (k : nat) (src : option T) : Prop :=
  is_Some src ∧ v !! k = src.

(** A just-constructed layer with weights loaded. *)
Inductive LSTM_configured : LSTMLayer T → Prop :=
| conf_ctor n m : LSTM_configured (ctor n m)
| conf_setW l w l' :
    LSTM_configured l → setWVals w l = Some l' → LSTM_configured l'
| conf_setU l u l' :
    LSTM_configured l → setUVals u l = Some l' → LSTM_configured l'
| conf_setB l b l' :
    LSTM_configured l → setBVals b l = Some l' → LSTM_configured l'.

(** A layer after any history of loads, forward calls and resets. *)
Inductive LSTM_reachable : LSTMLayer T → Prop :=
| reach_ctor n m : LSTM_reachable (ctor n m)
| reach_setW l w l' :
    LSTM_reachable l → setWVals w l = Some l' → LSTM_reachable l'
| reach_setU l u l' :
    LSTM_reachable l → setUVals u l = Some l' → LSTM_reachable l'
| reach_setB l b l' :
    LSTM_reachable l → setBVals b l = Some l' → LSTM_reachable l'
| reach_forward l x : LSTM_reachable l → LSTM_reachable (forward x l).1
| reach_reset l l' : LSTM_reachable l → reset l = Some l' → LSTM_reachable l'.

(** The two layers have the same sizes, weights and biases. *)
Definition same_config l1 l2 : Prop :=
  in_size l1 = in_size l2 ∧ out_size l1 = out_size l2 ∧
  (Wi l1 = Wi l2 ∧ Wf l1 = Wf l2 ∧ Wc l1 = Wc l2 ∧ Wo l1 = Wo l2) ∧
  (Ui l1 = Ui l2 ∧ Uf l1 = Uf l2 ∧ Uc l1 = Uc l2 ∧ Uo l1 = Uo l2) ∧
  (bi l1 = bi l2 ∧ bf l1 = bf l2 ∧ bc l1 = bc l2 ∧ bo l1 = bo l2).

(** What the loaders and the state operations keep: the sizes of the
    buffers; the loaders also keep the state vectors. *)
Definition keeps l (t : LSTMLayer T) : Prop :=
  LSTM_wf t ∧ ht1 t = ht1 l ∧ ct1 t = ct1 l ∧
  out_size t = out_size l ∧ in_size t = in_size l.
End LSTMSpec.

(** ** GRU: sizes and loaded gates *)

Section GRUSpec.
Context {T : Type} `{Scalar T}.
Import Eigen GRU.
Implicit Types (l : GRULayer T) (vals : list (list T)).

Record GRU_wf l : Prop := {
  gwf_wz : has_dims (wVec_z l) (out_size l) (in_size l);
  gwf_wr : has_dims (wVec_r l) (out_size l) (in_size l);
  gwf_wc : has_dims (wVec_c l) (out_size l) (in_size l);
  gwf_uz : has_dims (uVec_z l) (out_size l) (out_size l);
  gwf_ur : has_dims (uVec_r l) (out_size l) (out_size l);
  gwf_uc : has_dims (uVec_c l) (out_size l) (out_size l);
  gwf_bz : has_dims (bVec_z l) (out_size l) 2;
  gwf_br : has_dims (bVec_r l) (out_size l) 2;
  gwf_bc : has_dims (bVec_c l) (out_size l) 2
}.

Definition loaded3 vals rows cols (I K : nat) (m1 m2 m3 : Matrix T) : Prop :=
  (has_dims m1 rows cols ∧ filled vals 0 rows m1 I K) ∧
  (has_dims m2 rows cols ∧ filled vals rows rows m2 I K) ∧
  (has_dims m3 rows cols ∧ filled vals (rows * 2) rows m3 I K).
End GRUSpec.

(** ** Dense: sizes and loaded units *)

Section DenseSpec.
Context {T : Type} `{Scalar T}.
Implicit Types (s : Dense1.Dense1 T) (d : Dense.Dense T) (row : list T).

(** The unit has [n] weights and they are the first [n] values of
    [row]. *)
Definition sub_loaded (n : nat) row s : Prop :=
  Dense1.in_size s = n ∧ length (Dense1.weights s) = n ∧
  ∀ j, j < n → Dense1.weights s !! j = Some <$> row !! j.

Definition sub_sized (n : nat) s : Prop :=
  Dense1.in_size s = n ∧ length (Dense1.weights s) = n.

(** Every unit of the layer has [in_size] weights, and there are
    [out_size] units. *)
Definition Dense_wf d : Prop :=
  length (Dense.subLayers d) = Dense.out_size d ∧
  ∀ i s, Dense.subLayers d !! i = Some s → sub_sized (Dense.in_size d) s.
End DenseSpec.

(** ** The test runner: outputs, errors and their count *)

Section RunTestSpec.
Context {Model : Type}.
Variable forward : list float → Model → Model * float.

(** The outputs of the model fed one sample per call, with the final
    model state. *)
Fixpoint model_outputs (model : Model) (xs : list float)
  : Model * list float :=
  match xs with
  | [] => (model, [])
  | x :: xs' =>
      let '(model, y) := forward [x] model in
      let '(model, ys) := model_outputs model xs' in
      (model, y :: ys)
  end.

(** [|y_n - yRef_n|] for every sample. *)
Definition abs_errors (ys yRef : list float) : list float :=
  zip_with (λ y r, PrimFloat.abs (PrimFloat.sub y r)) ys yRef.

(** The comparison of the runner, [err > threshold]. *)
Definition exceeds (threshold err : float) : bool :=
  PrimFloat.ltb threshold err.

(** The number of samples whose error exceeds the threshold. *)
Fixpoint count_exceeding (threshold : float) (errs : list float) : nat :=
  match errs with
  | [] => 0
  | e :: errs' =>
      (if exceeds threshold e then 1 else 0) + count_exceeding threshold errs'
  end.
End RunTestSpec.

(** ** softmax: the exponentials and the sum of the xsimd backend *)

Section SoftmaxSpec.
Context {T : Type} `{Scalar T}.
Implicit Types (input : list T) (s : T).

(** [e^{x_j}], for the input [x]. *)
Definition exp_at input (j : nat) : T := sexp (nth j input szero).

(** The sum the vector loop accumulates: the horizontal sum of each
    batch, added batch by batch. *)
Definition batch_sums inc input (cnt : nat) s : T :=
  foldl (λ a c, a ⊕ XSIMD.hadd (exp_at input <$> seq (c * inc) inc))
        s (seq 0 cnt).

(** The sum of the xsimd backend: the batches first, then the
    remaining values one by one. *)
Definition xsimd_exp_sum inc input (dim : nat) : T :=
  let vec_size := dim - dim `mod` inc in
  foldl sadd (batch_sums inc input (vec_size / inc) szero)
        (exp_at input <$> seq vec_size (dim - vec_size)).
End SoftmaxSpec.

(** ** Concrete models and element types *)

(** A model of one state that returns its input sample. *)
Definition echo_forward (input : list float) (model : unit) : unit * float :=
  (model, nth 0 input 0%float).

(** [std::exp] at the two arguments of the example below: [e^0 = 1], and
    [e^37] rounded to binary64 is [11719142372802612]. *)
Definition exp_0_37 (x : float) : float :=
  if PrimFloat.eqb x 37 then 11719142372802612%float else 1%float.

(** [double], with [exp] and [tanh] given ([softmax] does not use
    [tanh]). *)
Definition double_Scalar (exp tanh : float → float) : Scalar float := {|
  szero := 0%float; sone := 1%float;
  sadd := PrimFloat.add; smul := PrimFloat.mul; sdiv := PrimFloat.div;
  sopp := PrimFloat.opp; sexp := exp; stanh := tanh
|}.

(** * Proofs *)

(** ** Loops *)

(** Invariant rule for counted loops: the loop is defined and ends in a
    state satisfying the invariant at the final index. *)
Lemma for_loop_inv {St : Type} (P : nat → St → Prop) body lo n (s : St) :
  P lo s →
  (∀ j t, lo ≤ j < lo + n → P j t → ∃ t', body j t = Some t' ∧ P (S j) t') →
  ∃ s', for_loop body lo n s = Some s' ∧ P (lo + n) s'.
Proof.
  revert lo s. induction n as [|n IH]; intros lo s HP Hstep; simpl.
  - exists s. by rewrite Nat.add_0_r.
  - destruct (Hstep lo s) as (t & -> & HP'); [lia|done|]. simpl.
    destruct (IH (S lo) t) as (s' & Hs & HP''); [done| |].
    + intros j u Hj. apply Hstep. lia.
    + exists s'. split; [done|]. by replace (lo + S n) with (S lo + n) by lia.
Qed.

(** Preservation rule: whatever a defined loop returns satisfies every
    property its body preserves. *)
Lemma for_loop_preserves {St : Type} (P : St → Prop) body lo n (s s' : St) :
  (∀ j t t', P t → body j t = Some t' → P t') →
  P s → for_loop body lo n s = Some s' → P s'.
Proof.
  intros Hbody. revert lo s. induction n as [|n IH]; intros lo s HP Hs.
  - by simplify_eq/=.
  - simpl in Hs. destruct (body lo s) as [t|] eqn:Ht; [|done].
    simpl in Hs. eauto.
Qed.

(** Invariant rule for strided loops whose range is [cnt] whole strides:
    the fuel suffices, the loop is defined, and the invariant, indexed by
    the number of completed iterations, holds at the end. *)
Lemma for_stride_inv {St : Type} (P : nat → St → Prop) body fuel lo bound inc
  cnt (s : St) :
  0 < inc → cnt ≤ fuel → bound = lo + cnt * inc →
  P 0 s →
  (∀ c t, c < cnt → P c t →
     ∃ t', body (lo + c * inc) t = Some t' ∧ P (S c) t') →
  ∃ s', for_stride body fuel lo bound inc s = Some s' ∧ P cnt s'.
Proof.
  intros Hinc. revert P fuel lo s.
  induction cnt as [|cnt IH]; intros P fuel lo s Hfuel Hbound HP Hstep.
  - exists s. split; [|done]. destruct fuel; simpl; by rewrite decide_False by lia.
  - destruct fuel as [|fuel]; [lia|]. simpl. rewrite decide_True by lia.
    destruct (Hstep 0 s) as (t & Ht & HP'); [lia|done|].
    rewrite Nat.add_0_r in Ht. rewrite Ht. simpl.
    apply (IH (λ c, P (S c))); [lia|lia|done|].
    intros c u Hc Hu. destruct (Hstep (S c) u) as (u' & Hu' & HP''); [lia|done|].
    exists u'. split; [|done]. rewrite <-Hu'. f_equal. simpl. lia.
Qed.

(** [loop_inv P s' Hs' HP]: apply the invariant rule to the loop in the
    goal, with invariant [P]; leaves the initial state and the step. *)
Ltac loop_inv P s' Hs' HP :=
  lazymatch goal with
  | |- context [for_loop ?body ?lo ?n ?s] =>
      destruct (for_loop_inv P body lo n s) as (s' & Hs' & HP)
  end.

(** ** Buffers and matrices *)

Section BufferFacts.
Context {T : Type}.
Implicit Types (M : list (list T)) (vals : list (list T)).

Lemma at2_covers vals n m i k :
  covers vals n m → i < n → k < m → is_Some (at2 vals i k).
Proof.
  intros Hc Hi Hk. destruct (Hc i Hi) as (row & Hrow & Hlen).
  unfold at2. rewrite Hrow. simpl. apply lookup_lt_is_Some. lia.
Qed.

Lemma store_Some (buf : list T) i v :
  i < length buf → store buf i v = Some (<[i := v]> buf).
Proof. intros Hi. unfold store. by rewrite decide_True. Qed.

Lemma store_inv (buf buf' : list T) i v :
  store buf i v = Some buf' → i < length buf ∧ buf' = <[i := v]> buf.
Proof. unfold store. case_decide; naive_solver. Qed.

Lemma coeff_set_Some M rows cols r c v :
  Eigen.has_dims M rows cols → r < rows → c < cols →
  ∃ M', Eigen.coeff_set M r c v = Some M' ∧ Eigen.has_dims M' rows cols.
Proof.
  intros [Hlen Hrows] Hr Hc.
  destruct (lookup_lt_is_Some_2 M r) as [row Hrow]; [lia|].
  assert (length row = cols) as Hrl.
  { eapply (proj1 (Forall_lookup _ _) Hrows); eauto. }
  exists (<[r := <[c := v]> row]> M). split.
  - unfold Eigen.coeff_set. rewrite Hrow. simpl.
    rewrite store_Some by lia. done.
  - split; [by rewrite length_insert|].
    apply Forall_insert; [done|]. by rewrite length_insert.
Qed.

Lemma coeff_set_dims M M' rows cols r c v :
  Eigen.coeff_set M r c v = Some M' →
  Eigen.has_dims M rows cols → Eigen.has_dims M' rows cols.
Proof.
  unfold Eigen.coeff_set. intros Hset [Hlen Hrows].
  destruct (M !! r) as [row|] eqn:Hrow; [|done]. simpl in Hset.
  destruct (store row c v) as [row'|] eqn:Hst; [|done].
  apply store_inv in Hst as [Hc ->]. simplify_eq/=.
  split; [by rewrite length_insert|].
  apply Forall_insert; [done|]. rewrite length_insert.
  eapply (proj1 (Forall_lookup _ _) Hrows); eauto.
Qed.

Lemma coeff_set_same M M' r c v :
  Eigen.coeff_set M r c v = Some M' → Eigen.coeff M' r c = Some v.
Proof.
  unfold Eigen.coeff_set, Eigen.coeff. intros Hset.
  destruct (M !! r) as [row|] eqn:Hrow; [|done]. simpl in Hset.
  destruct (store row c v) as [row'|] eqn:Hst; [|done].
  apply store_inv in Hst as [Hc ->]. simplify_eq/=.
  rewrite list_lookup_insert_eq by (by eapply lookup_lt_Some).
  simpl. by rewrite list_lookup_insert_eq.
Qed.

Lemma coeff_set_other M M' r c v r' c' :
  Eigen.coeff_set M r c v = Some M' → (r', c') ≠ (r, c) →
  Eigen.coeff M' r' c' = Eigen.coeff M r' c'.
Proof.
  unfold Eigen.coeff_set, Eigen.coeff. intros Hset Hne.
  destruct (M !! r) as [row|] eqn:Hrow; [|done]. simpl in Hset.
  destruct (store row c v) as [row'|] eqn:Hst; [|done].
  apply store_inv in Hst as [Hc ->]. simplify_eq/=.
  destruct (decide (r' = r)) as [->|Hr].
  - rewrite list_lookup_insert_eq by (by eapply lookup_lt_Some).
    rewrite Hrow. simpl. apply list_lookup_insert_ne. congruence.
  - by rewrite list_lookup_insert_ne.
Qed.

Lemma filled_init vals off rows M : filled vals off rows M 0 0.
Proof. intros i k _ [?|[_ ?]]; lia. Qed.

Lemma filled_next_col vals off rows M I :
  filled vals off rows M I rows → filled vals off rows M (S I) 0.
Proof.
  intros Hf i k Hk [Hi|[_ ?]]; [|lia]. apply Hf; [done|].
  destruct (decide (i = I)); [right|left]; lia.
Qed.

Lemma filled_step vals off rows M M' I K v :
  filled vals off rows M I K →
  at2 vals I (K + off) = Some v →
  Eigen.coeff_set M K I v = Some M' →
  filled vals off rows M' I (S K).
Proof.
  intros Hf Hv Hset i k Hk Hcase.
  destruct (decide ((k, i) = (K, I))) as [Heq|Hne].
  - simplify_eq. rewrite Hv. by eapply coeff_set_same.
  - rewrite (coeff_set_other _ _ _ _ _ _ _ Hset Hne). apply Hf; [done|].
    destruct Hcase as [?|[-> ?]]; [by left|right].
    split; [done|]. assert (k ≠ K) by congruence. lia.
Qed.
End BufferFacts.

(** ** LSTM: weight loading *)

Section LSTMFacts.
Context {T : Type} `{Scalar T}.
Import Eigen LSTM.
Implicit Types (l : LSTMLayer T) (vals wVals uVals : list (list T)).

Lemma Zero_has_dims rows cols : has_dims (Zero (T:=T) rows cols) rows cols.
Proof.
  split; [apply length_replicate|].
  apply Forall_replicate, length_replicate.
Qed.

Lemma coeff_Zero rows cols r c :
  r < rows → c < cols → coeff (Zero (T:=T) rows cols) r c = Some szero.
Proof.
  intros Hr Hc. unfold coeff, Zero.
  rewrite lookup_replicate_2 by done. simpl. by apply lookup_replicate_2.
Qed.

Lemma ctor_wf n m : LSTM_wf (ctor (T:=T) n m).
Proof.
  split; simpl; try apply Zero_has_dims; apply length_replicate.
Qed.

(** One gate of a two-dimensional load: the read is defined, the write
    is defined, and the progress predicate advances. *)
Lemma gate_store vals n m off M rows cols I K :
  covers vals n m → I < n → K + off < m →
  has_dims M rows cols → K < rows → I < cols →
  filled vals off rows M I K →
  ∃ v M', at2 vals I (K + off) = Some v ∧ coeff_set M K I v = Some M' ∧
          has_dims M' rows cols ∧ filled vals off rows M' I (S K).
Proof.
  intros Hc HI HK Hd HKr HIc Hf.
  destruct (at2_covers vals n m I (K + off)) as [v Hv]; [done..|].
  destruct (coeff_set_Some M rows cols K I v) as (M' & HM' & Hd'); [done..|].
  exists v, M'. eauto using filled_step.
Qed.

(** The proof of a four-gate load, for the loader of the goal: [vals] is
    the combined buffer, of [n] rows, the matrices have [cols] columns,
    and [P] is the invariant of the nested loops over layer [l]. *)
Ltac load4 l vals n cols P Hcov :=
  let gate off M I K :=
    let Hv := fresh "Hv" in
    let Hm := fresh "Hm" in
    destruct (gate_store vals n (4 * out_size l) off M
                (out_size l) cols I K)
      as (? & ? & Hv & Hm & ? & ?); [done || lia..|];
    rewrite Hv; simpl; rewrite Hm; simpl; clear Hv Hm in
  let l' := fresh "l'" in
  let Hl' := fresh "Hl'" in
  let HP := fresh "HP" in
  loop_inv (λ I, P I 0) l' Hl' HP;
  [ | intros I ? HI (wi & wf & wc & wo & -> & HL); simpl in HI;
      let t' := fresh "t'" in
      let Ht' := fresh "Ht'" in
      let HP' := fresh "HP'" in
      loop_inv (P I) t' Ht' HP';
      [ exists wi, wf, wc, wo; split; [reflexivity|exact HL]
      | intros K ? HK (mi & mf & mc & mo & -> & (Hi & Hf & Hc & Ho));
        simpl in *;
        destruct Hi as [Hdi Hfi], Hf as [Hdf Hff], Hc as [Hdc Hfc],
                 Ho as [Hdo Hfo];
        replace (at2 vals I K) with (at2 vals I (K + 0))
          by (by rewrite Nat.add_0_r);
        gate 0 mi I K; gate (out_size l) mf I K;
        gate (out_size l * 2) mc I K; gate (out_size l * 3) mo I K;
        eexists; split; [reflexivity|]; do 4 eexists;
        split; [reflexivity|]; unfold loaded4; by split_and!
      | simpl; exists t'; split; [exact Ht'|];
        destruct HP' as (mi & mf & mc & mo & -> & (Hi & Hf & Hc & Ho));
        exists mi, mf, mc, mo; split; [done|]; simpl in *;
        destruct Hi, Hf, Hc, Ho;
        unfold loaded4; split_and!; try done; by apply filled_next_col ]
    | rewrite Hl'; simpl in HP;
      destruct HP as (wi & wf & wc & wo & -> & HL); eauto 6 ].

Lemma setWVals_loaded l wVals :
  LSTM_wf l → covers wVals (in_size l) (4 * out_size l) →
  ∃ wi wf wc wo,
    setWVals wVals l = Some (with_W l wi wf wc wo) ∧
    loaded4 wVals (out_size l) (in_size l) (in_size l) 0 wi wf wc wo.
Proof.
  intros Hwf Hcov. unfold setWVals.
  set (P := λ I K (t : LSTMLayer T), ∃ wi wf wc wo,
    t = with_W l wi wf wc wo ∧
    loaded4 wVals (out_size l) (in_size l) I K wi wf wc wo).
  load4 l wVals (in_size l) (in_size l) P Hcov.
  exists (Wi l), (Wf l), (Wc l), (Wo l).
  split; [by destruct l|].
  destruct Hwf. unfold loaded4. split_and!; try done; apply filled_init.
Qed.

Lemma setUVals_loaded l uVals :
  LSTM_wf l → covers uVals (out_size l) (4 * out_size l) →
  ∃ ui uf uc uo,
    setUVals uVals l = Some (with_U l ui uf uc uo) ∧
    loaded4 uVals (out_size l) (out_size l) (out_size l) 0 ui uf uc uo.
Proof.
  intros Hwf Hcov. unfold setUVals.
  set (P := λ I K (t : LSTMLayer T), ∃ ui uf uc uo,
    t = with_U l ui uf uc uo ∧
    loaded4 uVals (out_size l) (out_size l) I K ui uf uc uo).
  load4 l uVals (out_size l) (out_size l) P Hcov.
  exists (Ui l), (Uf l), (Uc l), (Uo l).
  split; [by destruct l|].
  destruct Hwf. unfold loaded4. split_and!; try done; apply filled_init.
Qed.

Lemma bias_store (bVals : list T) off (v : Vector T) rows K :
  K + off < length bVals → length v = rows → K < rows →
  vfilled bVals off v K →
  ∃ x v', bVals !! (K + off) = Some x ∧ store v K x = Some v' ∧
          length v' = rows ∧ vfilled bVals off v' (S K).
Proof.
  intros HK Hlen HKr Hf.
  destruct (lookup_lt_is_Some_2 bVals (K + off)) as [x Hx]; [done|].
  exists x, (<[K := x]> v). split_and!; [done| | |].
  - apply store_Some. lia.
  - by rewrite length_insert.
  - intros k Hk. destruct (decide (k = K)) as [->|Hne].
    + rewrite Hx. apply list_lookup_insert_eq. lia.
    + rewrite list_lookup_insert_ne by done. apply Hf. lia.
Qed.

Lemma setBVals_loaded l (bVals : list T) :
  LSTM_wf l → 4 * out_size l ≤ length bVals →
  ∃ vi vf vc vo,
    setBVals bVals l = Some (with_b l vi vf vc vo) ∧
    vloaded4 bVals (out_size l) (out_size l) vi vf vc vo.
Proof.
  intros Hwf Hlen. unfold setBVals.
  set (P := λ K (t : LSTMLayer T), ∃ vi vf vc vo,
    t = with_b l vi vf vc vo ∧ vloaded4 bVals (out_size l) K vi vf vc vo).
  loop_inv P l' Hl' HP.
  - exists (bi l), (bf l), (bc l), (bo l). split; [by destruct l|].
    destruct Hwf. unfold vloaded4, vfilled. split_and!; try done; lia.
  - intros K t HK (vi & vf & vc & vo & -> & (Hi & Hf & Hc & Ho)).
    simpl in *.
    destruct Hi as [Hdi Hfi], Hf as [Hdf Hff], Hc as [Hdc Hfc],
             Ho as [Hdo Hfo].
    replace (bVals !! K) with (bVals !! (K + 0)) by (by rewrite Nat.add_0_r).
    destruct (bias_store bVals 0 vi (out_size l) K)
      as (? & ? & Hv & Hm & ? & ?); [done || lia..|].
    rewrite Hv; simpl; rewrite Hm; simpl; clear Hv Hm.
    destruct (bias_store bVals (out_size l) vf (out_size l) K)
      as (? & ? & Hv & Hm & ? & ?); [done || lia..|].
    rewrite Hv; simpl; rewrite Hm; simpl; clear Hv Hm.
    destruct (bias_store bVals (out_size l * 2) vc (out_size l) K)
      as (? & ? & Hv & Hm & ? & ?); [done || lia..|].
    rewrite Hv; simpl; rewrite Hm; simpl; clear Hv Hm.
    destruct (bias_store bVals (out_size l * 3) vo (out_size l) K)
      as (? & ? & Hv & Hm & ? & ?); [done || lia..|].
    rewrite Hv; simpl; rewrite Hm; simpl; clear Hv Hm.
    eexists. split; [reflexivity|]. do 4 eexists.
    split; [reflexivity|]. unfold vloaded4. by split_and!.
  - rewrite Hl'. simpl in HP.
    destruct HP as (vi & vf & vc & vo & -> & HL). eauto 6.
Qed.
Lemma filled_holds vals n m off rows M I i k :
  covers vals n m → filled vals off rows M I 0 →
  i < I → i < n → k < rows → k + off < m →
  holds M k i (at2 vals i (k + off)).
Proof.
  intros Hc Hf HiI Hi Hk Hko. split; [by eapply at2_covers|].
  apply Hf; [done|by left].
Qed.

(** C1. The LSTM setters slice the combined buffers in the gate order
    input, forget, cell, output: after [setWVals], for every row [i] of
    the buffer and every [k < out_size], [W_i(k, i) = wVals[i][k]],
    [W_f(k, i) = wVals[i][k + out_size]],
    [W_c(k, i) = wVals[i][k + 2 * out_size]] and
    [W_o(k, i) = wVals[i][k + 3 * out_size]]; [setUVals] and [setBVals]
    use the same four offsets for the [U] matrices and the biases. *)
Theorem LSTM_setVals_gate_order l wVals uVals (bVals : list T) :
  LSTM_wf l →
  covers wVals (in_size l) (4 * out_size l) →
  covers uVals (out_size l) (4 * out_size l) →
  4 * out_size l ≤ length bVals →
  ∃ lW lU lB,
    setWVals wVals l = Some lW ∧ setUVals uVals l = Some lU ∧
    setBVals bVals l = Some lB ∧
    ∀ k, k < out_size l →
      (∀ i, i < in_size l →
         holds (Wi lW) k i (at2 wVals i k) ∧
         holds (Wf lW) k i (at2 wVals i (k + out_size l)) ∧
         holds (Wc lW) k i (at2 wVals i (k + 2 * out_size l)) ∧
         holds (Wo lW) k i (at2 wVals i (k + 3 * out_size l))) ∧
      (∀ i, i < out_size l →
         holds (Ui lU) k i (at2 uVals i k) ∧
         holds (Uf lU) k i (at2 uVals i (k + out_size l)) ∧
         holds (Uc lU) k i (at2 uVals i (k + 2 * out_size l)) ∧
         holds (Uo lU) k i (at2 uVals i (k + 3 * out_size l))) ∧
      vholds (bi lB) k (bVals !! k) ∧
      vholds (bf lB) k (bVals !! (k + out_size l)) ∧
      vholds (bc lB) k (bVals !! (k + 2 * out_size l)) ∧
      vholds (bo lB) k (bVals !! (k + 3 * out_size l)).
Proof.
  intros Hwf HW HU HB.
  destruct (setWVals_loaded l wVals Hwf HW)
    as (wi & wf & wc & wo & -> & (Wi1 & Wf1 & Wc1 & Wo1)).
  destruct (setUVals_loaded l uVals Hwf HU)
    as (ui & uf & uc & uo & -> & (Ui1 & Uf1 & Uc1 & Uo1)).
  destruct (setBVals_loaded l bVals Hwf HB)
    as (vi & vf & vc & vo & -> & (Bi1 & Bf1 & Bc1 & Bo1)).
  replace (2 * out_size l) with (out_size l * 2) by lia.
  replace (3 * out_size l) with (out_size l * 3) by lia.
  do 3 eexists. split_and!; [reflexivity..|]. intros k Hk. simpl.
  split_and!.
  - intros i Hi.
    replace (at2 wVals i k) with (at2 wVals i (k + 0))
      by (by rewrite Nat.add_0_r).
    split_and!; eapply filled_holds;
      first [exact HW | apply Wi1 | apply Wf1 | apply Wc1 | apply Wo1
            | lia].
  - intros i Hi.
    replace (at2 uVals i k) with (at2 uVals i (k + 0))
      by (by rewrite Nat.add_0_r).
    split_and!; eapply filled_holds;
      first [exact HU | apply Ui1 | apply Uf1 | apply Uc1 | apply Uo1
            | lia].
  - split; [apply lookup_lt_is_Some; lia|].
    rewrite (proj2 Bi1 k Hk). by rewrite Nat.add_0_r.
  - split; [apply lookup_lt_is_Some; lia|]. by rewrite (proj2 Bf1 k Hk).
  - split; [apply lookup_lt_is_Some; lia|]. by rewrite (proj2 Bc1 k Hk).
  - split; [apply lookup_lt_is_Some; lia|]. by rewrite (proj2 Bo1 k Hk).
Qed.
End LSTMFacts.

(** ** GRU: weight loading and the getters *)

Section GRUFacts.
Context {T : Type} `{Scalar T}.
Import Eigen GRU.
Implicit Types (l : GRULayer T) (vals wVals uVals bVals : list (list T)).

Lemma GRU_ctor_wf n m : GRU_wf (ctor (T:=T) n m).
Proof. split; simpl; apply Zero_has_dims. Qed.

(** The proof of a three-gate load, as for the LSTM. *)
Ltac load3 l vals n cols P Hcov :=
  let gate off M I K :=
    let Hv := fresh "Hv" in
    let Hm := fresh "Hm" in
    destruct (gate_store vals n (3 * out_size l) off M
                (out_size l) cols I K)
      as (? & ? & Hv & Hm & ? & ?); [done || lia..|];
    rewrite Hv; simpl; rewrite Hm; simpl; clear Hv Hm in
  let l' := fresh "l'" in
  let Hl' := fresh "Hl'" in
  let HP := fresh "HP" in
  loop_inv (λ I, P I 0) l' Hl' HP;
  [ | intros I ? HI (mz & mr & mc & -> & HL); simpl in HI;
      let t' := fresh "t'" in
      let Ht' := fresh "Ht'" in
      let HP' := fresh "HP'" in
      loop_inv (P I) t' Ht' HP';
      [ exists mz, mr, mc; split; [reflexivity|exact HL]
      | intros K ? HK (nz & nr & nc & -> & (Hz & Hr & Hc));
        simpl in *;
        destruct Hz as [Hdz Hfz], Hr as [Hdr Hfr], Hc as [Hdc Hfc];
        replace (at2 vals I K) with (at2 vals I (K + 0))
          by (by rewrite Nat.add_0_r);
        gate 0 nz I K; gate (out_size l) nr I K;
        gate (out_size l * 2) nc I K;
        eexists; split; [reflexivity|]; do 3 eexists;
        split; [reflexivity|]; unfold loaded3; by split_and!
      | simpl; exists t'; split; [exact Ht'|];
        destruct HP' as (nz & nr & nc & -> & (Hz & Hr & Hc));
        exists nz, nr, nc; split; [done|]; simpl in *;
        destruct Hz, Hr, Hc;
        unfold loaded3; split_and!; try done; by apply filled_next_col ]
    | rewrite Hl'; simpl in HP;
      destruct HP as (mz & mr & mc & -> & HL); eauto 6 ].

Lemma GRU_setWVals_loaded l wVals :
  GRU_wf l → covers wVals (in_size l) (3 * out_size l) →
  ∃ wz wr wc,
    setWVals wVals l = Some (with_w l wz wr wc) ∧
    loaded3 wVals (out_size l) (in_size l) (in_size l) 0 wz wr wc.
Proof.
  intros Hwf Hcov. unfold setWVals.
  set (P := λ I K (t : GRULayer T), ∃ wz wr wc,
    t = with_w l wz wr wc ∧
    loaded3 wVals (out_size l) (in_size l) I K wz wr wc).
  load3 l wVals (in_size l) (in_size l) P Hcov.
  exists (wVec_z l), (wVec_r l), (wVec_c l). split; [by destruct l|].
  destruct Hwf. unfold loaded3. split_and!; try done; apply filled_init.
Qed.

Lemma GRU_setUVals_loaded l uVals :
  GRU_wf l → covers uVals (out_size l) (3 * out_size l) →
  ∃ uz ur uc,
    setUVals uVals l = Some (with_u l uz ur uc) ∧
    loaded3 uVals (out_size l) (out_size l) (out_size l) 0 uz ur uc.
Proof.
  intros Hwf Hcov. unfold setUVals.
  set (P := λ I K (t : GRULayer T), ∃ uz ur uc,
    t = with_u l uz ur uc ∧
    loaded3 uVals (out_size l) (out_size l) I K uz ur uc).
  load3 l uVals (out_size l) (out_size l) P Hcov.
  exists (uVec_z l), (uVec_r l), (uVec_c l). split; [by destruct l|].
  destruct Hwf. unfold loaded3. split_and!; try done; apply filled_init.
Qed.

Lemma GRU_setBVals_loaded l bVals :
  GRU_wf l → covers bVals 2 (3 * out_size l) →
  ∃ bz br bc,
    setBVals bVals l = Some (with_b l bz br bc) ∧
    loaded3 bVals (out_size l) 2 2 0 bz br bc.
Proof.
  intros Hwf Hcov. unfold setBVals.
  set (P := λ I K (t : GRULayer T), ∃ bz br bc,
    t = with_b l bz br bc ∧ loaded3 bVals (out_size l) 2 I K bz br bc).
  load3 l bVals 2 2 P Hcov.
  exists (bVec_z l), (bVec_r l), (bVec_c l). split; [by destruct l|].
  destruct Hwf. unfold loaded3. split_and!; try done; apply filled_init.
Qed.

(** C2. The GRU setters slice the combined buffers in the gate order
    update, reset, candidate: after [setWVals], for every row [i] of the
    buffer and every [k < out_size], [wVec_z(k, i) = wVals[i][k]],
    [wVec_r(k, i) = wVals[i][k + out_size]] and
    [wVec_c(k, i) = wVals[i][k + 2 * out_size]]; [setUVals] and
    [setBVals] use the same three offsets. *)
Theorem GRU_setVals_gate_order l wVals uVals bVals :
  GRU_wf l →
  covers wVals (in_size l) (3 * out_size l) →
  covers uVals (out_size l) (3 * out_size l) →
  covers bVals 2 (3 * out_size l) →
  ∃ lW lU lB,
    setWVals wVals l = Some lW ∧ setUVals uVals l = Some lU ∧
    setBVals bVals l = Some lB ∧
    ∀ k, k < out_size l →
      (∀ i, i < in_size l →
         holds (wVec_z lW) k i (at2 wVals i k) ∧
         holds (wVec_r lW) k i (at2 wVals i (k + out_size l)) ∧
         holds (wVec_c lW) k i (at2 wVals i (k + 2 * out_size l))) ∧
      (∀ i, i < out_size l →
         holds (uVec_z lU) k i (at2 uVals i k) ∧
         holds (uVec_r lU) k i (at2 uVals i (k + out_size l)) ∧
         holds (uVec_c lU) k i (at2 uVals i (k + 2 * out_size l))) ∧
      (∀ i, i < 2 →
         holds (bVec_z lB) k i (at2 bVals i k) ∧
         holds (bVec_r lB) k i (at2 bVals i (k + out_size l)) ∧
         holds (bVec_c lB) k i (at2 bVals i (k + 2 * out_size l))).
Proof.
  intros Hwf HW HU HB.
  destruct (GRU_setWVals_loaded l wVals Hwf HW)
    as (wz & wr & wc & -> & (Wz1 & Wr1 & Wc1)).
  destruct (GRU_setUVals_loaded l uVals Hwf HU)
    as (uz & ur & uc & -> & (Uz1 & Ur1 & Uc1)).
  destruct (GRU_setBVals_loaded l bVals Hwf HB)
    as (bz & br & bc & -> & (Bz1 & Br1 & Bc1)).
  replace (2 * out_size l) with (out_size l * 2) by lia.
  do 3 eexists. split_and!; [reflexivity..|]. intros k Hk. simpl.
  split_and!; intros i Hi.
  - replace (at2 wVals i k) with (at2 wVals i (k + 0))
      by (by rewrite Nat.add_0_r).
    split_and!; eapply filled_holds;
      first [exact HW | apply Wz1 | apply Wr1 | apply Wc1 | lia].
  - replace (at2 uVals i k) with (at2 uVals i (k + 0))
      by (by rewrite Nat.add_0_r).
    split_and!; eapply filled_holds;
      first [exact HU | apply Uz1 | apply Ur1 | apply Uc1 | lia].
  - replace (at2 bVals i k) with (at2 bVals i (k + 0))
      by (by rewrite Nat.add_0_r).
    split_and!; eapply filled_holds;
      first [exact HB | apply Bz1 | apply Br1 | apply Bc1 | lia].
Qed.
End GRUFacts.

Section GRUGetters.
Context {T : Type} `{Scalar T}.
Import Eigen GRU.
Implicit Types (l : GRULayer T) (wVals : list (list T)).

(** What [getWVal] returns at the two gate boundaries, for any loaded
    buffer: the first value of the previous gate's slice. *)
Lemma GRU_getWVal_at_boundary l wVals i :
  GRU_wf l → covers wVals (in_size l) (3 * out_size l) →
  0 < out_size l → i < in_size l →
  ∃ lW, setWVals wVals l = Some lW ∧
    getWVal lW i (out_size l) = at2 wVals i 0 ∧
    getWVal lW i (2 * out_size l) = at2 wVals i (out_size l).
Proof.
  intros Hwf Hcov Hout Hi.
  destruct (GRU_setWVals_loaded l wVals Hwf Hcov)
    as (wz & wr & wc & -> & ((_ & Hz) & (_ & Hr) & _)).
  eexists. split; [reflexivity|].
  unfold getWVal, getVal. cbn [wVec_z wVec_r wVec_c out_size with_w].
  split.
  - rewrite !decide_False by lia. rewrite Nat.Div0.mod_same.
    rewrite (Hz i 0) by (done || by left). done.
  - rewrite (decide_False (P := 2 * out_size l < 2 * out_size l)) by lia.
    rewrite (decide_True (P := out_size l < 2 * out_size l)) by lia.
    rewrite (decide_False (P := out_size l = 0)) by lia.
    replace ((2 * out_size l) `mod` out_size l) with 0
      by (symmetry; apply Nat.Div0.mod_mul).
    rewrite (Hr i 0) by (done || by left). done.
Qed.

(** Away from the boundaries the getter returns the stored value. *)
Lemma GRU_getWVal_off_boundary l wVals i k :
  GRU_wf l → covers wVals (in_size l) (3 * out_size l) →
  i < in_size l → k < 3 * out_size l →
  k ≠ out_size l → k ≠ 2 * out_size l →
  ∃ lW, setWVals wVals l = Some lW ∧ getWVal lW i k = at2 wVals i k.
Proof.
  intros Hwf Hcov Hi Hk Hk1 Hk2.
  destruct (GRU_setWVals_loaded l wVals Hwf Hcov)
    as (wz & wr & wc & -> & ((_ & Hz) & (_ & Hr) & (_ & Hc))).
  eexists. split; [reflexivity|].
  unfold getWVal, getVal. cbn [wVec_z wVec_r wVec_c out_size with_w].
  rewrite (decide_False (P := out_size l = 0)) by lia.
  destruct (decide (2 * out_size l < k)) as [H2|H2]; cbv iota.
  - replace k with ((k - 2 * out_size l) + 2 * out_size l) at 1 by lia.
    rewrite Nat.Div0.mod_add, Nat.mod_small by lia.
    rewrite Hc by (lia || by left). f_equal. lia.
  - destruct (decide (out_size l < k)) as [H1|H1]; cbv iota.
    + replace k with ((k - out_size l) + 1 * out_size l) at 1 by lia.
      rewrite Nat.Div0.mod_add, Nat.mod_small by lia.
      rewrite Hr by (lia || by left). f_equal. lia.
    + rewrite Nat.mod_small by lia.
      rewrite Hz by (lia || by left). f_equal. lia.
Qed.
End GRUGetters.

(** C9. The GRU getters do not return the stored value at a gate boundary:
    with [out_size = 2] and the row [10 20 30 40 50 60] loaded,
    [getWVal(0, 2)] returns [10], not [wVals[0][2] = 30], and
    [getWVal(0, 4)] returns [30], not [wVals[0][4] = 50]; [getUVal] and
    [getBVal] select the gate with the same comparisons. *)
Theorem GRU_getter_gate_boundary :
  let w := [[10; 20; 30; 40; 50; 60]]%Z in
  let b := [[1; 2; 3; 4; 5; 6]; [7; 8; 9; 10; 11; 12]]%Z in
  ∃ l lB,
    GRU.setWVals w (GRU.ctor 1 2) = Some l ∧
    GRU.getWVal l 0 2 = Some 10%Z ∧ at2 w 0 2 = Some 30%Z ∧
    GRU.getWVal l 0 4 = Some 30%Z ∧ at2 w 0 4 = Some 50%Z ∧
    GRU.setBVals b (GRU.ctor 1 2) = Some lB ∧
    GRU.getBVal lB 1 2 = Some 7%Z ∧ at2 b 1 2 = Some 9%Z.
Proof. do 2 eexists. split_and!; reflexivity. Qed.

(** ** LSTM: reset and state purity *)

Section LSTMState.
Context {T : Type} `{Scalar T}.
Import Eigen LSTM.
Implicit Types (l : LSTMLayer T) (x : Vector T).

(** Steps through the reads and writes of a loader body that returned. *)
Ltac body_cases Ht :=
  repeat match type of Ht with
  | context [?o ≫= _] =>
      let E := fresh "E" in destruct o eqn:E; simpl in Ht; [|done]
  end; simplify_eq/=.

Lemma keeps_refl l : LSTM_wf l → keeps l l.
Proof. by unfold keeps. Qed.

Lemma setWVals_keeps l w l' :
  LSTM_wf l → setWVals w l = Some l' → keeps l l'.
Proof.
  intros Hwf. unfold setWVals.
  apply for_loop_preserves; [|by apply keeps_refl].
  intros i t t' Ht. apply for_loop_preserves; [|done].
  intros k u u' ([] & ? & ? & ? & ?) Hu. body_cases Hu.
  split_and!; try done.
  split; simpl; try done; eapply coeff_set_dims; eauto.
Qed.

Lemma setUVals_keeps l u l' :
  LSTM_wf l → setUVals u l = Some l' → keeps l l'.
Proof.
  intros Hwf. unfold setUVals.
  apply for_loop_preserves; [|by apply keeps_refl].
  intros i t t' Ht. apply for_loop_preserves; [|done].
  intros k v v' ([] & ? & ? & ? & ?) Hv. body_cases Hv.
  split_and!; try done.
  split; simpl; try done; eapply coeff_set_dims; eauto.
Qed.

Lemma setBVals_keeps l b l' :
  LSTM_wf l → setBVals b l = Some l' → keeps l l'.
Proof.
  intros Hwf. unfold setBVals.
  apply for_loop_preserves; [|by apply keeps_refl].
  intros k v v' ([] & ? & ? & ? & ?) Hv. body_cases Hv.
  repeat match goal with
  | E : store _ _ _ = Some _ |- _ => apply store_inv in E as [? ->]
  end.
  split_and!; try done.
  split; simpl; try done; by rewrite length_insert.
Qed.

Lemma length_gate (W U : Matrix T) (b h : Vector T) x rows cols cols' :
  has_dims W rows cols → has_dims U rows cols' → length b = rows →
  length (vadd (vadd (matvec W x) (matvec U h)) b) = rows.
Proof.
  intros [HW _] [HU _] Hb. unfold vadd, matvec.
  rewrite !length_zip_with, !length_fmap. lia.
Qed.

Lemma forward_wf l x : LSTM_wf l → LSTM_wf (forward x l).1.
Proof.
  intros [].
  assert (∀ W U b cols cols',
    has_dims W (out_size l) cols → has_dims U (out_size l) cols' →
    length b = out_size l →
    length (sigmoid (vadd (vadd (matvec W x) (matvec U (ht1 l))) b))
    = out_size l) as Hsig.
  { intros. unfold sigmoid. rewrite length_fmap. by eapply length_gate. }
  assert (length (vadd
    (cwiseProduct
       (sigmoid (vadd (vadd (matvec (Wf l) x) (matvec (Uf l) (ht1 l)))
                  (bf l))) (ct1 l))
    (cwiseProduct
       (sigmoid (vadd (vadd (matvec (Wi l) x) (matvec (Ui l) (ht1 l)))
                  (bi l)))
       (stanh <$> vadd (vadd (matvec (Wc l) x) (matvec (Uc l) (ht1 l)))
                    (bc l)))) = out_size l) as Hc.
  { unfold vadd at 1. unfold cwiseProduct.
    rewrite !length_zip_with, length_fmap.
    erewrite !Hsig by eauto. erewrite length_gate by eauto. lia. }
  split; try (simpl; done). unfold forward; cbn [fst ht1 ct1 out_size].
  unfold cwiseProduct at 1. rewrite length_zip_with, length_fmap.
  erewrite Hsig by eauto. rewrite Hc. lia.
Qed.

(** On a layer whose state vectors have their size, [reset] is defined
    and zeroes both of them. *)
Lemma reset_zero l :
  LSTM_wf l →
  reset l = Some (with_state l (VZero (out_size l)) (VZero (out_size l))).
Proof.
  intros []. unfold reset, fill.
  rewrite !decide_True by lia. simpl.
  rewrite !drop_ge by lia. by rewrite !app_nil_r.
Qed.

Lemma reachable_wf l : LSTM_reachable l → LSTM_wf l.
Proof.
  induction 1 as [n m|l w l' _ IH Hs|l u l' _ IH Hs|l b l' _ IH Hs
                 |l x _ IH|l l' _ IH Hr].
  - apply ctor_wf.
  - by destruct (setWVals_keeps l w l' IH Hs).
  - by destruct (setUVals_keeps l u l' IH Hs).
  - by destruct (setBVals_keeps l b l' IH Hs).
  - by apply forward_wf.
  - rewrite (reset_zero l IH) in Hr. simplify_eq.
    destruct IH. split; simpl; try done; apply length_replicate.
Qed.

Lemma configured_fresh l :
  LSTM_configured l →
  LSTM_wf l ∧ ht1 l = VZero (out_size l) ∧ ct1 l = VZero (out_size l).
Proof.
  induction 1 as [n m|l w l' _ (IH & Hh & Hc) Hs
                 |l u l' _ (IH & Hh & Hc) Hs|l b l' _ (IH & Hh & Hc) Hs].
  - split; [apply ctor_wf|done].
  - destruct (setWVals_keeps l w l' IH Hs) as (? & -> & -> & -> & _); eauto.
  - destruct (setUVals_keeps l u l' IH Hs) as (? & -> & -> & -> & _); eauto.
  - destruct (setBVals_keeps l b l' IH Hs) as (? & -> & -> & -> & _); eauto.
Qed.

(** The output of [forward] is a function of the configuration, the
    state vectors and the input: the scratch vectors do not matter. *)
Lemma forward_output l1 l2 x :
  same_config l1 l2 → ht1 l1 = ht1 l2 → ct1 l1 = ct1 l2 →
  (forward x l1).2 = (forward x l2).2 ∧
  ht1 (forward x l1).1 = ht1 (forward x l2).1 ∧
  ct1 (forward x l1).1 = ct1 (forward x l2).1.
Proof.
  intros (_ & _ & (Ei & Ef & Ec & Eo) & (Fi & Ff & Fc & Fo) &
          (Gi & Gf & Gc & Go)) Hh Hc.
  unfold forward. simpl.
  by rewrite Ei, Ef, Ec, Eo, Fi, Ff, Fc, Fo, Gi, Gf, Gc, Go, Hh, Hc.
Qed.

(** C3. For an LSTM layer with any loaded weights and any history of
    forward calls, [reset()] is defined and sets [h] and [c] to zero, and
    for every input [x], [forward(x)] after the reset returns what
    [forward(x)] returns on a just-constructed layer with the same
    configuration. *)
Theorem LSTM_reset_state_pure l l0 x :
  LSTM_reachable l → LSTM_configured l0 → same_config l l0 →
  ∃ lr, reset l = Some lr ∧
    ht1 lr = VZero (out_size l) ∧ ct1 lr = VZero (out_size l) ∧
    (forward x lr).2 = (forward x l0).2.
Proof.
  intros Hreach Hconf Hsame.
  apply reachable_wf in Hreach.
  destruct (configured_fresh l0 Hconf) as (_ & Hh0 & Hc0).
  rewrite (reset_zero l Hreach). eexists. split; [reflexivity|].
  split_and!; [done..|].
  apply forward_output; simpl.
  - destruct Hsame as (? & ? & ? & ? & ?). by unfold same_config.
  - rewrite Hh0. by destruct Hsame as (_ & -> & _).
  - rewrite Hc0. by destruct Hsame as (_ & -> & _).
Qed.
End LSTMState.

(** ** Dense *)

Section DenseFacts.
Context {T : Type} `{Scalar T}.
Implicit Types (s : Dense1.Dense1 T) (d : Dense.Dense T)
  (row input out b : list T) (w : list (list T)).

Lemma Dense1_setWeights_loaded s row n :
  sub_sized n s → n ≤ length row →
  ∃ s', Dense1.setWeights row s = Some s' ∧ sub_loaded n row s' ∧
        Dense1.bias s' = Dense1.bias s.
Proof.
  intros [Hn Hlen] Hrow. unfold Dense1.setWeights.
  loop_inv (λ i (wts : list (option T)),
    length wts = n ∧ ∀ j, j < i → wts !! j = Some <$> row !! j) w' Hw' HP.
  - split; [done|]. intros j Hj. lia.
  - intros i wts Hi [Hl Hset]. rewrite Hn in Hi.
    destruct (lookup_lt_is_Some_2 row i) as [v Hv]; [lia|].
    rewrite Hv. simpl. rewrite store_Some by lia.
    eexists. split; [reflexivity|]. split; [by rewrite length_insert|].
    intros j Hj. destruct (decide (j = i)) as [->|Hne].
    + rewrite Hv. apply list_lookup_insert_eq. lia.
    + rewrite list_lookup_insert_ne by done. apply Hset. lia.
  - rewrite Hw'. simpl. eexists. split; [reflexivity|].
    rewrite Hn in HP. destruct HP as [Hl Hset].
    split; [|done]. split_and!; simpl; [done..|].
    intros j Hj. apply Hset. lia.
Qed.

(** The unit's forward pass, once loaded: the accumulation of
    [std::inner_product] is the sum of the products in index order,
    started from zero, and the bias is added last. *)
Lemma Dense1_forward_loaded s row input n bv :
  sub_loaded n row s → Dense1.bias s = Some bv →
  n ≤ length row → n ≤ length input →
  Dense1.forward input s = Some (dot_sum n row input ⊕ bv).
Proof.
  intros (Hn & Hlen & Hw) Hb Hrow Hin. unfold Dense1.forward.
  loop_inv (λ i (acc : T), acc = dot_sum i row input) acc Hacc HP.
  - done.
  - intros j acc Hj ->. rewrite Hn in Hj.
    destruct (lookup_lt_is_Some_2 row j) as [wv Hwv]; [lia|].
    destruct (lookup_lt_is_Some_2 input j) as [xv Hxv]; [lia|].
    rewrite Hw by lia. rewrite Hwv, Hxv. simpl.
    eexists. split; [reflexivity|]. unfold dot_sum. simpl.
    by rewrite (nth_lookup_Some _ _ _ _ Hwv), (nth_lookup_Some _ _ _ _ Hxv).
  - rewrite Hacc. simpl. rewrite Hb. simpl. rewrite HP, Hn. done.
Qed.

Lemma Dense_ctor_wf n m : Dense_wf (Dense.ctor (T:=T) n m).
Proof.
  split; simpl; [apply length_replicate|].
  intros i s [-> _]%lookup_replicate. split; simpl; [done|].
  apply length_replicate.
Qed.

Lemma Dense_setWeights_loaded d w :
  Dense_wf d → covers w (Dense.out_size d) (Dense.in_size d) →
  ∃ subs,
    Dense.setWeights w d =
      Some {| Dense.in_size := Dense.in_size d;
              Dense.out_size := Dense.out_size d;
              Dense.subLayers := subs |} ∧
    length subs = Dense.out_size d ∧
    ∀ i, i < Dense.out_size d → ∃ s s0 row,
      subs !! i = Some s ∧ Dense.subLayers d !! i = Some s0 ∧
      w !! i = Some row ∧ sub_loaded (Dense.in_size d) row s ∧
      Dense1.bias s = Dense1.bias s0.
Proof.
  intros [Hlen Hsz] Hcov. unfold Dense.setWeights.
  loop_inv (λ i (subs : list (Dense1.Dense1 T)),
    length subs = Dense.out_size d ∧
    (∀ i', i' < i → ∃ s s0 row,
       subs !! i' = Some s ∧ Dense.subLayers d !! i' = Some s0 ∧
       w !! i' = Some row ∧ sub_loaded (Dense.in_size d) row s ∧
       Dense1.bias s = Dense1.bias s0) ∧
    (∀ i', i ≤ i' → subs !! i' = Dense.subLayers d !! i'))
    subs Hsubs HP.
  - split_and!; [done| |done]. intros i' Hi'. lia.
  - intros i subs Hi (Hl & Hdone & Hrest). simpl in Hi.
    destruct (Hcov i) as (row & Hrow & Hrl); [lia|].
    destruct (lookup_lt_is_Some_2 (Dense.subLayers d) i) as [s0 Hs0]; [lia|].
    rewrite Hrow. simpl. rewrite Hrest, Hs0 by lia. simpl.
    destruct (Dense1_setWeights_loaded s0 row (Dense.in_size d))
      as (s' & -> & Hld & Hbias); [by eapply Hsz|done|]. simpl.
    rewrite store_Some by lia. eexists. split; [reflexivity|].
    split_and!.
    + by rewrite length_insert.
    + intros i' Hi'. destruct (decide (i' = i)) as [->|Hne].
      * exists s', s0, row. rewrite list_lookup_insert_eq by lia. done.
      * rewrite list_lookup_insert_ne by done. apply Hdone. lia.
    + intros i' Hi'. rewrite list_lookup_insert_ne by lia.
      apply Hrest. lia.
  - rewrite Hsubs. simpl. exists subs. split; [done|].
    destruct HP as (Hl & Hdone & _). split; [done|].
    intros i Hi. apply Hdone. lia.
Qed.

Lemma Dense_setBias_set d b :
  length (Dense.subLayers d) = Dense.out_size d →
  Dense.out_size d ≤ length b →
  ∃ subs,
    Dense.setBias b d =
      Some {| Dense.in_size := Dense.in_size d;
              Dense.out_size := Dense.out_size d;
              Dense.subLayers := subs |} ∧
    length subs = Dense.out_size d ∧
    ∀ i, i < Dense.out_size d → ∃ s0 bv,
      Dense.subLayers d !! i = Some s0 ∧ b !! i = Some bv ∧
      subs !! i = Some (Dense1.setBias bv s0).
Proof.
  intros Hlen Hb. unfold Dense.setBias.
  loop_inv (λ i (subs : list (Dense1.Dense1 T)),
    length subs = Dense.out_size d ∧
    (∀ i', i' < i → ∃ s0 bv,
       Dense.subLayers d !! i' = Some s0 ∧ b !! i' = Some bv ∧
       subs !! i' = Some (Dense1.setBias bv s0)) ∧
    (∀ i', i ≤ i' → subs !! i' = Dense.subLayers d !! i'))
    subs Hsubs HP.
  - split_and!; [done| |done]. intros i' Hi'. lia.
  - intros i subs Hi (Hl & Hdone & Hrest). simpl in Hi.
    destruct (lookup_lt_is_Some_2 b i) as [bv Hbv]; [lia|].
    destruct (lookup_lt_is_Some_2 (Dense.subLayers d) i) as [s0 Hs0]; [lia|].
    rewrite Hbv. simpl. rewrite Hrest, Hs0 by lia. simpl.
    rewrite store_Some by lia. eexists. split; [reflexivity|].
    split_and!.
    + by rewrite length_insert.
    + intros i' Hi'. destruct (decide (i' = i)) as [->|Hne].
      * exists s0, bv. rewrite list_lookup_insert_eq by lia. done.
      * rewrite list_lookup_insert_ne by done. apply Hdone. lia.
    + intros i' Hi'. rewrite list_lookup_insert_ne by lia.
      apply Hrest. lia.
  - rewrite Hsubs. simpl. exists subs. split; [done|].
    destruct HP as (Hl & Hdone & _). split; [done|].
    intros i Hi. apply Hdone. lia.
Qed.

Lemma Dense_forward_units d input out (y : nat → T) :
  Dense.out_size d ≤ length out →
  (∀ i, i < Dense.out_size d → ∃ s,
     Dense.subLayers d !! i = Some s ∧
     Dense1.forward input s = Some (y i)) →
  ∃ out', Dense.forward input out d = Some out' ∧
    length out' = length out ∧
    (∀ i, i < Dense.out_size d → out' !! i = Some (y i)) ∧
    (∀ i, Dense.out_size d ≤ i → out' !! i = out !! i).
Proof.
  intros Hout Hunits. unfold Dense.forward.
  loop_inv (λ i (o : list T),
    length o = length out ∧
    (∀ i', i' < i → o !! i' = Some (y i')) ∧
    (∀ i', i ≤ i' → o !! i' = out !! i')) out' Hout' HP.
  - split_and!; [done| |done]. intros i' Hi'. lia.
  - intros i o Hi (Hl & Hdone & Hrest). simpl in Hi.
    destruct (Hunits i) as (s & -> & Hy); [lia|]. simpl.
    rewrite Hy. simpl. rewrite store_Some by lia.
    eexists. split; [reflexivity|]. split_and!.
    + by rewrite length_insert.
    + intros i' Hi'. destruct (decide (i' = i)) as [->|Hne].
      * apply list_lookup_insert_eq. lia.
      * rewrite list_lookup_insert_ne by done. apply Hdone. lia.
    + intros i' Hi'. rewrite list_lookup_insert_ne by lia.
      apply Hrest. lia.
  - exists out'. done.
Qed.

(** C4. After [setWeights(w)] and [setBias(b)], [forward(input)] is
    defined and writes, for each output unit [i < out_size],
    [out[i] = (Σ_{j < in_size} w[i][j] * input[j]) + b[i]], the sum taken
    in index order; nothing else is applied to the value, and the rest
    of the output buffer is left as it was. *)
Theorem Dense_forward_affine d w b input out :
  Dense_wf d →
  covers w (Dense.out_size d) (Dense.in_size d) →
  Dense.out_size d ≤ length b →
  Dense.in_size d ≤ length input →
  Dense.out_size d ≤ length out →
  ∃ d1 d2 out',
    Dense.setWeights w d = Some d1 ∧ Dense.setBias b d1 = Some d2 ∧
    Dense.forward input out d2 = Some out' ∧
    length out' = length out ∧
    (∀ i, i < Dense.out_size d →
       out' !! i = Some (dot_sum (Dense.in_size d) (nth i w []) input
                         ⊕ nth i b szero)) ∧
    (∀ i, Dense.out_size d ≤ i → out' !! i = out !! i).
Proof.
  intros Hwf Hw Hb Hin Hout.
  destruct (Dense_setWeights_loaded d w Hwf Hw) as (subs1 & E1 & Hl1 & H1).
  set (d1 := {| Dense.in_size := Dense.in_size d;
                Dense.out_size := Dense.out_size d;
                Dense.subLayers := subs1 |}).
  destruct (Dense_setBias_set d1 b) as (subs2 & E2 & Hl2 & H2); [done..|].
  set (d2 := {| Dense.in_size := Dense.in_size d1;
                Dense.out_size := Dense.out_size d1;
                Dense.subLayers := subs2 |}).
  destruct (Dense_forward_units d2 input out
    (λ i, dot_sum (Dense.in_size d) (nth i w []) input ⊕ nth i b szero))
    as (out' & E3 & ? & ? & ?); [done| |].
  - intros i Hi. simpl in Hi.
    destruct (H1 i Hi) as (s & s0 & row & Hs & _ & Hrow & Hld & _).
    destruct (H2 i Hi) as (s' & bv & Hs' & Hbv & Hs2). simpl in Hs'.
    rewrite Hs in Hs'. simplify_eq.
    destruct (Hw i Hi) as (row' & Hrow' & Hrl). simplify_eq.
    eexists. split; [exact Hs2|].
    rewrite (nth_lookup_Some _ _ _ _ Hrow), (nth_lookup_Some _ _ _ _ Hbv).
    apply Dense1_forward_loaded; [|done..].
    destruct Hld as (? & ? & ?). by split_and!.
  - exists d1, d2, out'. by split_and!.
Qed.

(** A just-constructed unit has no defined forward pass: its weights
    and its bias are indeterminate. *)
Lemma Dense1_fresh_forward n input :
  Dense1.forward input (Dense1.ctor (T:=T) n) = None.
Proof. unfold Dense1.forward. by destruct n. Qed.

(** C5 (STL Dense). Right after construction the weights and the bias of
    every unit are indeterminate, not zero, and [forward] is undefined;
    for the Eigen LSTM every weight and bias coefficient is zero. *)
Theorem Dense_fresh_forward_undefined n m input out :
  (Dense.forward input out (Dense.ctor (T:=T) n (S m)) = None ∧
   Dense.getBias (Dense.ctor (T:=T) n (S m)) 0 = None ∧
   Dense.getWeight (Dense.ctor (T:=T) (S n) (S m)) 0 0 = None) ∧
  (LSTM.Wi (LSTM.ctor (T:=T) n m) = Eigen.Zero m n ∧
   LSTM.Uf (LSTM.ctor (T:=T) n m) = Eigen.Zero m m ∧
   LSTM.bo (LSTM.ctor (T:=T) n m) = Eigen.VZero m).
Proof.
  split; [|done]. split_and!; [|done..].
  unfold Dense.forward. simpl. by rewrite Dense1_fresh_forward.
Qed.
End DenseFacts.

(** ** Copy construction and copy assignment *)

Section Copies.
Context {T : Type} `{Scalar T}.

(** C7. The copy constructors of Dense, LSTM and GRU copy the shape
    only: whatever the weights, biases and state of the source, the copy
    is the layer the constructor builds from the source's sizes. *)
Theorem copy_shape_only (d : Dense.Dense T) (l : LSTM.LSTMLayer T)
  (g : GRU.GRULayer T) :
  Dense.copy d = Dense.ctor (Dense.in_size d) (Dense.out_size d) ∧
  LSTM.copy l = LSTM.ctor (LSTM.in_size l) (LSTM.out_size l) ∧
  GRU.copy g = GRU.ctor (GRU.in_size g) (GRU.out_size g).
Proof. done. Qed.

Lemma copy_assign_None {L : Type} (copy : L → L) depth (this other : L) :
  copy_assign copy depth this other = None.
Proof.
  revert other. induction depth as [|depth IH]; intros other; [done|].
  simpl. apply IH.
Qed.

Lemma assign_returns_never {L : Type} (copy : L → L) (this other result : L) :
  ¬ assign_returns copy this other result.
Proof. induction 1 as [this other result _ IH]. exact IH. Qed.

(** C10. The copy-assignment operators of Dense, LSTM and GRU never
    return: for any two layers no activation of [operator=] has a result,
    and, as a function, whatever the bound on the nesting no activation
    completes within it. *)
Theorem copy_assign_never_returns
  (d d' : Dense.Dense T) (l l' : LSTM.LSTMLayer T) (g g' : GRU.GRULayer T) :
  (∀ r, ¬ assign_returns Dense.copy d d' r) ∧
  (∀ r, ¬ assign_returns LSTM.copy l l' r) ∧
  (∀ r, ¬ assign_returns GRU.copy g g' r) ∧
  ∀ depth,
    Dense_assign depth d d' = None ∧
    LSTM_assign depth l l' = None ∧
    GRU_assign depth g g' = None.
Proof.
  split_and!; try (intros r; apply assign_returns_never).
  intros depth. split_and!; apply copy_assign_None.
Qed.
End Copies.

(** ** The test runner *)

Section RunTest.
Import Tests.
Context {Model : Type}.
Variable reset : Model → Model.
Variable forward : list float → Model → Model * float.

Lemma model_outputs_snoc model xs x :
  model_outputs forward model (xs ++ [x]) =
  let '(m, ys) := model_outputs forward model xs in
  let '(m', y) := forward [x] m in (m', ys ++ [y]).
Proof.
  revert model. induction xs as [|x0 xs IH]; intros model; simpl.
  - by destruct (forward [x] model).
  - destruct (forward [x0] model) as [m y0]. rewrite IH.
    destruct (model_outputs forward m xs) as [m1 ys].
    by destruct (forward [x] m1).
Qed.

Lemma model_outputs_length model xs :
  length (model_outputs forward model xs).2 = length xs.
Proof.
  revert model. induction xs as [|x xs IH]; intros model; simpl; [done|].
  destruct (forward [x] model) as [m y]. specialize (IH m).
  destruct (model_outputs forward m xs). simpl in *. by rewrite IH.
Qed.

Lemma count_exceeding_app threshold errs1 errs2 :
  count_exceeding threshold (errs1 ++ errs2) =
  count_exceeding threshold errs1 + count_exceeding threshold errs2.
Proof. induction errs1 as [|e errs1 IH]; simpl; [done|]. rewrite IH. lia. Qed.

Lemma count_exceeding_0 threshold errs :
  count_exceeding threshold errs = 0 ↔
  ∀ e, e ∈ errs → exceeds threshold e = false.
Proof.
  induction errs as [|e errs IH]; simpl.
  - split; [|done]. intros _ e He. by apply elem_of_nil in He.
  - destruct (exceeds threshold e) eqn:He; simpl.
    + split; [done|]. intros Hall.
      specialize (Hall e (list_elem_of_here _ _)). congruence.
    + rewrite IH. split.
      * intros Hall e' [->|He']%elem_of_cons; auto.
      * intros Hall e' He'. apply Hall. by apply list_elem_of_further.
Qed.

Lemma abs_errors_snoc ys y yRef r :
  yRef !! length ys = Some r →
  abs_errors (ys ++ [y]) yRef =
  abs_errors ys yRef ++ [PrimFloat.abs (PrimFloat.sub y r)].
Proof.
  revert yRef. induction ys as [|y0 ys IH]; intros [|r0 yRef] Hr;
    simplify_eq/=; [done|].
  unfold abs_errors in *. simpl. f_equal. by apply IH.
Qed.

(** The first loop is defined and fills [yData] with the model's
    outputs. *)
Lemma run_model_outputs model xData :
  run_model forward model xData = Some (model_outputs forward model xData).
Proof.
  unfold run_model.
  loop_inv (λ n (st : Model * list float),
    n ≤ length xData ∧
    st.1 = (model_outputs forward model (take n xData)).1 ∧
    st.2 = (model_outputs forward model (take n xData)).2
           ++ replicate (length xData - n) 0%float) st Hst HP.
  - split_and!; [lia|done|]. simpl. by rewrite Nat.sub_0_r.
  - intros n [m yData] Hn (_ & Hm & Hy). simpl in *.
    destruct (lookup_lt_is_Some_2 xData n) as [x Hx]; [lia|].
    rewrite Hx. simpl. rewrite (take_S_r _ _ _ Hx), model_outputs_snoc.
    pose proof (model_outputs_length model (take n xData)) as Hlen.
    destruct (model_outputs forward model (take n xData)) as [m0 ys].
    simpl in *. subst m yData. destruct (forward [x] m0) as [m1 y].
    rewrite length_take_le in Hlen by lia.
    rewrite store_Some
      by (rewrite length_app, length_replicate; lia). simpl.
    eexists. split; [reflexivity|]. simpl. split_and!; [lia|done|].
    replace (length xData - n) with (S (length xData - S n)) by lia.
    simpl. rewrite insert_app_r_alt by lia.
    rewrite Hlen, Nat.sub_diag. simpl. by rewrite <-app_assoc.
  - rewrite Hst. f_equal. destruct HP as (_ & Hm & Hy). simpl in *.
    rewrite firstn_all in Hm, Hy. rewrite Nat.sub_diag in Hy. simpl in Hy.
    rewrite app_nil_r in Hy. destruct st, (model_outputs forward model xData).
    simpl in *. by subst.
Qed.

(** The second loop is defined when the reference has a value for every
    sample, and counts the samples whose error exceeds the threshold. *)
Lemma count_errors_count threshold ys yRef :
  length ys ≤ length yRef →
  ∃ max_error,
    count_errors threshold (length ys) ys yRef =
    Some (count_exceeding threshold (abs_errors ys yRef), max_error).
Proof.
  intros Hlen. unfold count_errors.
  loop_inv (λ n (st : nat * float),
    st.1 = count_exceeding threshold (abs_errors (take n ys) yRef))
    st Hst HP.
  - done.
  - intros n [nErrs max_error] Hn HnE. simpl in *.
    destruct (lookup_lt_is_Some_2 ys n) as [y Hy]; [lia|].
    destruct (lookup_lt_is_Some_2 yRef n) as [r Hr]; [lia|].
    rewrite Hy, Hr. simpl.
    rewrite (take_S_r _ _ _ Hy).
    rewrite (abs_errors_snoc _ _ _ r)
      by (by rewrite length_take_le by lia).
    rewrite count_exceeding_app. simpl. unfold exceeds.
    destruct (PrimFloat.ltb threshold _);
      (eexists; split; [reflexivity|]); simpl; lia.
  - destruct st as [nErrs max_error]. simpl in *. exists max_error.
    rewrite Hst. rewrite firstn_all in HP. by rewrite HP.
Qed.

(** C8. [runTest] is defined whenever the reference has a value for
    every sample, and returns 0 exactly when no sample has an absolute
    difference above the threshold of the configuration (the test the
    code makes, [err > threshold], which is false for a difference that
    is not a number); otherwise it returns 1 and the count it prints is
    the number of samples above the threshold.  The thresholds
    configured are [1.0e-6] for [lstm] and [5.0e-6] for [gru]. *)
Theorem runTest_verdict test model xData yRefData :
  length xData ≤ length yRefData →
  let ys := (model_outputs forward (reset model) xData).2 in
  let errs := abs_errors ys yRefData in
  let nErrs := count_exceeding (threshold test) errs in
  ∃ code out,
    runTest reset forward test model xData yRefData = Some (code, out) ∧
    (code = 0%Z ↔ ∀ e, e ∈ errs → exceeds (threshold test) e = false) ∧
    (code ≠ 0%Z →
       code = 1%Z ∧ 0 < nErrs ∧ ∃ max_error,
         out = [Str "TESTING "; Str (name test);
                Str " IMPLEMENTATION..."; Endl;
                Str "FAIL: "; Num nErrs; Str " errors!"; Endl;
                Str "Maximum error: "; Flt max_error; Endl]) ∧
    threshold <$> tests !! "lstm" = Some 1.0e-6%float ∧
    threshold <$> tests !! "gru" = Some 5.0e-6%float.
Proof.
  intros Hlen ys errs nErrs. unfold runTest.
  rewrite run_model_outputs.
  pose proof (model_outputs_length (reset model) xData) as Hys.
  destruct (model_outputs forward (reset model) xData) as [m ys'] eqn:Hrun.
  simpl in *. subst ys. rewrite <-Hys.
  destruct (count_errors_count (threshold test) ys' yRefData)
    as (max_error & ->); [lia|]. simpl.
  fold errs. fold nErrs.
  pose proof (count_exceeding_0 (threshold test) errs) as H0.
  fold nErrs in H0.
  destruct (decide (0 < nErrs)) as [Hpos|Hzero].
  - do 2 eexists. split; [reflexivity|]. split_and!; [|eauto|done..].
    split; [done|]. intros Hall. apply H0 in Hall. lia.
  - do 2 eexists. split; [reflexivity|]. split_and!; [|done..].
    split; [|done]. intros _. apply H0. lia.
Qed.
End RunTest.

(** C8, as stated with "at most": with the [lstm] configuration, a model
    whose output for the single sample is not a number, and the reference
    [0], [runTest] returns 0 although the absolute difference is not at
    most the threshold. *)
Lemma runTest_nan_counted_as_success :
  let xData := [PrimFloat.nan] in
  let yRefData := [0%float] in
  let ys := (model_outputs echo_forward () xData).2 in
  ∃ test out,
    Tests.tests !! "lstm" = Some test ∧
    Tests.runTest (λ m, m) echo_forward test () xData yRefData
      = Some (0%Z, out) ∧
    ¬ (∀ e, e ∈ abs_errors ys yRefData →
         PrimFloat.leb e (Tests.threshold test) = true).
Proof.
  do 2 eexists. split_and!; [reflexivity..|].
  intros Hall. specialize (Hall _ (list_elem_of_here _ _)).
  vm_compute in Hall. discriminate.
Qed.

(** ** softmax *)

Section SoftmaxFacts.
Context {T : Type} `{Scalar T}.
Implicit Types (input out o : list T) (s : T).

Lemma big_sum_foldl n (f : nat → T) :
  big_sum n f = foldl sadd szero (f <$> seq 0 n).
Proof.
  induction n as [|n IH]; [done|].
  rewrite seq_S, fmap_app, foldl_app. simpl. by rewrite IH.
Qed.

(** The loop that stores the exponentials and accumulates their sum,
    over the indices [lo .. lo + n). *)
Lemma exp_sum_loop input lo n o s :
  lo + n ≤ length input → lo + n ≤ length o →
  ∃ o',
    for_loop (λ i '(out, exp_sum),
        x ← input !! i;
        out ← store out i (sexp x);
        y ← out !! i;
        Some (out, exp_sum ⊕ y)) lo n (o, s)
    = Some (o', foldl sadd s (exp_at input <$> seq lo n)) ∧
    length o' = length o ∧
    (∀ j, lo ≤ j < lo + n → o' !! j = Some (exp_at input j)) ∧
    (∀ j, ¬ lo ≤ j < lo + n → o' !! j = o !! j).
Proof.
  intros Hin Hout.
  loop_inv (λ i (st : list T * T),
    length st.1 = length o ∧
    (∀ j, lo ≤ j < i → st.1 !! j = Some (exp_at input j)) ∧
    (∀ j, ¬ lo ≤ j < i → st.1 !! j = o !! j) ∧
    st.2 = foldl sadd s (exp_at input <$> seq lo (i - lo))) st Hst HP.
  - simpl. split_and!; [done| |done|].
    + intros j Hj. lia.
    + by rewrite Nat.sub_diag.
  - intros i [o1 s1] Hi (Hl & Hdone & Hrest & Hs). simpl in *.
    destruct (lookup_lt_is_Some_2 input i) as [x Hx]; [lia|].
    rewrite Hx. simpl. rewrite store_Some by lia. simpl.
    rewrite list_lookup_insert_eq by lia. simpl.
    eexists. split; [reflexivity|]. simpl.
    assert (exp_at input i = sexp x) as Hf.
    { unfold exp_at. by rewrite (nth_lookup_Some _ _ _ _ Hx). }
    split_and!.
    + by rewrite length_insert.
    + intros j Hj. destruct (decide (j = i)) as [->|Hne].
      * rewrite list_lookup_insert_eq by lia. by rewrite Hf.
      * rewrite list_lookup_insert_ne by done. apply Hdone. lia.
    + intros j Hj. rewrite list_lookup_insert_ne by lia. apply Hrest. lia.
    + replace (S i - lo) with (S (i - lo)) by lia.
      rewrite seq_S, fmap_app, foldl_app. simpl.
      replace (lo + (i - lo)) with i by lia. by rewrite Hs, Hf.
  - destruct st as [o' s']. destruct HP as (Hl & Hdone & Hrest & Hs).
    simpl in *. exists o'. rewrite Hst, Hs.
    replace (lo + n - lo) with n by lia. done.
Qed.

(** The loop that divides by the sum, over [lo .. lo + n). *)
Lemma div_loop (sum : T) lo n o :
  lo + n ≤ length o →
  ∃ o',
    for_loop (λ i out,
        y ← out !! i;
        store out i (y ⊘ sum)) lo n o = Some o' ∧
    length o' = length o ∧
    (∀ j, lo ≤ j < lo + n → o' !! j = (λ y, y ⊘ sum) <$> o !! j) ∧
    (∀ j, ¬ lo ≤ j < lo + n → o' !! j = o !! j).
Proof.
  intros Hout.
  loop_inv (λ i (o1 : list T),
    length o1 = length o ∧
    (∀ j, lo ≤ j < i → o1 !! j = (λ y, y ⊘ sum) <$> o !! j) ∧
    (∀ j, ¬ lo ≤ j < i → o1 !! j = o !! j)) o' Ho' HP.
  - split_and!; [done| |done]. intros j Hj. lia.
  - intros i o1 Hi (Hl & Hdone & Hrest).
    destruct (lookup_lt_is_Some_2 o i) as [y Hy]; [lia|].
    rewrite Hrest, Hy by lia. simpl. rewrite store_Some by lia.
    eexists. split; [reflexivity|]. split_and!.
    + by rewrite length_insert.
    + intros j Hj. destruct (decide (j = i)) as [->|Hne].
      * rewrite list_lookup_insert_eq by lia. by rewrite Hy.
      * rewrite list_lookup_insert_ne by done. apply Hdone. lia.
    + intros j Hj. rewrite list_lookup_insert_ne by lia. apply Hrest. lia.
  - exists o'. done.
Qed.

(** The scalar backend computes the formula of the specification, in
    any arithmetic. *)
Lemma STL_softmax_spec input out dim :
  dim ≤ length input → dim ≤ length out →
  ∃ out', STL.softmax input out dim = Some out' ∧
    length out' = length out ∧
    (∀ i, i < dim → out' !! i = Some (softmax_spec input dim i)) ∧
    (∀ i, dim ≤ i → out' !! i = out !! i).
Proof.
  intros Hin Hout. unfold STL.softmax.
  destruct (exp_sum_loop input 0 dim out szero)
    as (o1 & -> & Hl1 & Hd1 & Hr1); [done..|]. simpl.
  destruct (div_loop (foldl sadd szero (exp_at input <$> seq 0 dim))
              0 dim o1) as (o2 & -> & Hl2 & Hd2 & Hr2); [lia|].
  exists o2. split_and!; [done|lia| |].
  - intros i Hi. rewrite Hd2, Hd1 by lia. simpl.
    unfold softmax_spec. by rewrite big_sum_foldl.
  - intros i Hi. rewrite Hr2, Hr1 by lia. done.
Qed.

(** *** The xsimd backend *)

Lemma load_aligned_Some inc (buf : list T) i :
  i + inc ≤ length buf →
  XSIMD.load_aligned inc buf i = Some (take inc (drop i buf)).
Proof. intros Hi. unfold XSIMD.load_aligned. by rewrite decide_True. Qed.

Lemma store_aligned_Some (buf vec : list T) i :
  i + length vec ≤ length buf →
  ∃ buf', XSIMD.store_aligned buf i vec = Some buf' ∧
    length buf' = length buf ∧
    (∀ j, i ≤ j < i + length vec → buf' !! j = vec !! (j - i)) ∧
    (∀ j, ¬ i ≤ j < i + length vec → buf' !! j = buf !! j).
Proof.
  intros Hi. unfold XSIMD.store_aligned. rewrite decide_True by done.
  eexists. split; [reflexivity|]. split_and!.
  - rewrite !length_app, length_take, length_drop. lia.
  - intros j Hj. rewrite lookup_app_r by (rewrite length_take; lia).
    rewrite length_take. replace (i `min` length buf) with i by lia.
    apply lookup_app_l. lia.
  - intros j Hj. destruct (decide (j < i)) as [Hlt|Hge].
    + rewrite lookup_app_l by (rewrite length_take; lia).
      by apply lookup_take_lt.
    + rewrite lookup_app_r by (rewrite length_take; lia).
      rewrite length_take. replace (i `min` length buf) with i by lia.
      rewrite lookup_app_r by lia. rewrite lookup_drop. f_equal. lia.
Qed.

(** A batch loaded from [i] holds the next [inc] values. *)
Lemma lookup_batch inc (buf : list T) i j :
  take inc (drop i buf) !! j = if decide (j < inc) then buf !! (i + j)
                               else None.
Proof.
  case_decide.
  - rewrite lookup_take_lt by done. apply lookup_drop.
  - apply lookup_take_ge. lia.
Qed.

Lemma exp_batch inc input i :
  i + inc ≤ length input →
  XSIMD.exp (take inc (drop i input)) = exp_at input <$> seq i inc.
Proof.
  intros Hi. unfold XSIMD.exp. apply list_eq. intros j.
  rewrite !list_lookup_fmap, lookup_batch. case_decide.
  - rewrite lookup_seq_lt by done. simpl.
    destruct (lookup_lt_is_Some_2 input (i + j)) as [x Hx]; [lia|].
    rewrite Hx. simpl. unfold exp_at.
    by rewrite (nth_lookup_Some _ _ _ _ Hx).
  - rewrite lookup_seq_ge by lia. done.
Qed.

Lemma vexp_sum_loop inc input fuel cnt o s :
  0 < inc → cnt ≤ fuel →
  cnt * inc ≤ length input → cnt * inc ≤ length o →
  ∃ o',
    for_stride (λ i '(out, exp_sum),
        x_vec ← XSIMD.load_aligned inc input i;
        let y_vec := XSIMD.exp x_vec in
        let exp_sum := exp_sum ⊕ XSIMD.hadd y_vec in
        out ← XSIMD.store_aligned out i y_vec;
        Some (out, exp_sum)) fuel 0 (cnt * inc) inc (o, s)
    = Some (o', batch_sums inc input cnt s) ∧
    length o' = length o ∧
    (∀ j, j < cnt * inc → o' !! j = Some (exp_at input j)) ∧
    (∀ j, cnt * inc ≤ j → o' !! j = o !! j).
Proof.
  intros Hinc Hfuel Hin Hout.
  destruct (for_stride_inv (λ c (st : list T * T),
    length st.1 = length o ∧
    (∀ j, j < c * inc → st.1 !! j = Some (exp_at input j)) ∧
    (∀ j, c * inc ≤ j → st.1 !! j = o !! j) ∧
    st.2 = batch_sums inc input c s)
    (λ i '(out, exp_sum),
        x_vec ← XSIMD.load_aligned inc input i;
        let y_vec := XSIMD.exp x_vec in
        let exp_sum := exp_sum ⊕ XSIMD.hadd y_vec in
        out ← XSIMD.store_aligned out i y_vec;
        Some (out, exp_sum)) fuel 0 (cnt * inc) inc cnt (o, s))
    as (st & Hst & HP); [done..| | |].
  - simpl. split_and!; [done| |done..]. intros j Hj. lia.
  - intros c [o1 s1] Hc (Hl & Hdone & Hrest & Hs). simpl in *.
    assert (c * inc + inc ≤ cnt * inc) as Hle by nia.
    rewrite load_aligned_Some by lia. simpl.
    rewrite exp_batch by lia.
    destruct (store_aligned_Some o1 (exp_at input <$> seq (c * inc) inc)
                (c * inc)) as (o2 & -> & Hl2 & Hin2 & Hout2).
    { rewrite length_fmap, length_seq. lia. }
    rewrite length_fmap, length_seq in Hin2, Hout2. simpl.
    eexists. split; [reflexivity|]. simpl. split_and!.
    + lia.
    + intros j Hj. destruct (decide (j < c * inc)) as [Hlt|Hge].
      * rewrite Hout2 by lia. by apply Hdone.
      * rewrite Hin2 by lia. rewrite list_lookup_fmap.
        rewrite lookup_seq_lt by lia. simpl. f_equal. f_equal. lia.
    + intros j Hj. rewrite Hout2 by lia. apply Hrest. lia.
    + unfold batch_sums. rewrite seq_S, foldl_app. simpl.
      by rewrite Hs.
  - destruct st as [o' s']. destruct HP as (Hl & Hdone & Hrest & Hs).
    simpl in *. exists o'. rewrite Hst, Hs. done.
Qed.

Lemma vdiv_loop inc (sum : T) fuel cnt o :
  0 < inc → cnt ≤ fuel →
  cnt * inc ≤ length o →
  ∃ o',
    for_stride (λ i out,
        x_vec ← XSIMD.load_aligned inc out i;
        let y_vec := XSIMD.div_scalar x_vec sum in
        XSIMD.store_aligned out i y_vec) fuel 0 (cnt * inc) inc o
    = Some o' ∧
    length o' = length o ∧
    (∀ j, j < cnt * inc → o' !! j = (λ y, y ⊘ sum) <$> o !! j) ∧
    (∀ j, cnt * inc ≤ j → o' !! j = o !! j).
Proof.
  intros Hinc Hfuel Hout.
  destruct (for_stride_inv (λ c (o1 : list T),
    length o1 = length o ∧
    (∀ j, j < c * inc → o1 !! j = (λ y, y ⊘ sum) <$> o !! j) ∧
    (∀ j, c * inc ≤ j → o1 !! j = o !! j))
    (λ i out,
        x_vec ← XSIMD.load_aligned inc out i;
        let y_vec := XSIMD.div_scalar x_vec sum in
        XSIMD.store_aligned out i y_vec) fuel 0 (cnt * inc) inc cnt o)
    as (o' & Ho' & HP); [done..| | |].
  - split_and!; [done| |done]. intros j Hj. lia.
  - intros c o1 Hc (Hl & Hdone & Hrest). simpl.
    assert (c * inc + inc ≤ cnt * inc) as Hle by nia.
    rewrite load_aligned_Some by lia. simpl.
    destruct (store_aligned_Some o1
                (XSIMD.div_scalar (take inc (drop (c * inc) o1)) sum)
                (c * inc)) as (o2 & -> & Hl2 & Hin2 & Hout2).
    { unfold XSIMD.div_scalar.
      rewrite length_fmap, length_take, length_drop. lia. }
    unfold XSIMD.div_scalar in Hin2, Hout2.
    rewrite length_fmap, length_take, length_drop in Hin2, Hout2.
    replace (inc `min` (length o1 - c * inc)) with inc in Hin2, Hout2
      by lia.
    eexists. split; [reflexivity|]. split_and!.
    + lia.
    + intros j Hj. destruct (decide (j < c * inc)) as [Hlt|Hge].
      * rewrite Hout2 by lia. by apply Hdone.
      * rewrite Hin2 by lia. rewrite list_lookup_fmap, lookup_batch.
        rewrite decide_True by lia.
        replace (c * inc + (j - c * inc)) with j by lia.
        by rewrite Hrest by lia.
    + intros j Hj. rewrite Hout2 by lia. apply Hrest. lia.
  - exists o'. done.
Qed.

(** The number of whole batches and the size they cover. *)
Lemma vec_size_batches inc dim :
  0 < inc →
  let vec_size := dim - dim `mod` inc in
  vec_size = (vec_size / inc) * inc ∧ vec_size ≤ dim.
Proof.
  intros Hinc vec_size. subst vec_size.
  pose proof (Nat.div_mod_eq dim inc) as Hdm.
  pose proof (Nat.mod_upper_bound dim inc ltac:(lia)) as Hub.
  replace (dim - dim `mod` inc) with (dim `div` inc * inc) by lia.
  rewrite Nat.div_mul by lia. lia.
Qed.

(** The xsimd backend divides each exponential by its own sum, in any
    arithmetic and for every [dim], multiple of the batch size or not. *)
Lemma XSIMD_softmax_own_sum inc input out dim :
  0 < inc → dim ≤ length input → dim ≤ length out →
  ∃ out', XSIMD.softmax inc input out dim = Some out' ∧
    length out' = length out ∧
    (∀ i, i < dim →
       out' !! i = Some (exp_at input i ⊘ xsimd_exp_sum inc input dim)) ∧
    (∀ i, dim ≤ i → out' !! i = out !! i).
Proof.
  intros Hinc Hin Hout. unfold XSIMD.softmax.
  rewrite decide_False by lia.
  destruct (vec_size_batches inc dim Hinc) as [Hvs Hvd].
  set (vec_size := dim - dim `mod` inc) in *.
  set (cnt := vec_size / inc) in *. cbv zeta.
  assert (cnt ≤ vec_size) as Hcnt by nia.
  destruct (vexp_sum_loop inc input vec_size cnt out szero)
    as (oA & EA & HlA & HdA & HrA); [done || lia..|].
  cbv zeta in EA. rewrite <-Hvs in EA. rewrite EA. simpl.
  destruct (exp_sum_loop input vec_size (dim - vec_size) oA
              (batch_sums inc input cnt szero))
    as (oB & -> & HlB & HdB & HrB); [lia..|]. simpl.
  assert (foldl sadd (batch_sums inc input cnt szero)
            (exp_at input <$> seq vec_size (dim - vec_size))
          = xsimd_exp_sum inc input dim) as -> by reflexivity.
  destruct (vdiv_loop inc (xsimd_exp_sum inc input dim) vec_size cnt oB)
    as (oC & EC & HlC & HdC & HrC); [done || lia..|].
  cbv zeta in EC. rewrite <-Hvs in EC. rewrite EC. simpl.
  destruct (div_loop (xsimd_exp_sum inc input dim) vec_size
              (dim - vec_size) oC)
    as (oD & -> & HlD & HdD & HrD); [lia|].
  exists oD. split_and!; [done|lia| |].
  - intros i Hi. destruct (decide (i < vec_size)) as [Hlt|Hge].
    + rewrite HrD, HdC, HrB, HdA by lia. done.
    + rewrite HdD, HrC, HdB by lia. done.
  - intros i Hi. rewrite HrD, HrC, HrB, HrA by lia. done.
Qed.

(** *** Exact arithmetic: the two sums coincide *)

Section ExactSum.
Hypothesis sadd_assoc : ∀ a b c : T, a ⊕ (b ⊕ c) = (a ⊕ b) ⊕ c.
Hypothesis sadd_0_l : ∀ a : T, szero ⊕ a = a.

Lemma foldl_sadd_acc (a b : T) ys :
  a ⊕ foldl sadd b ys = foldl sadd (a ⊕ b) ys.
Proof.
  revert b. induction ys as [|y ys IH]; intros b; simpl; [done|].
  by rewrite IH, sadd_assoc.
Qed.

Lemma hadd_acc (a : T) ys :
  ys ≠ [] → a ⊕ XSIMD.hadd ys = foldl sadd a ys.
Proof.
  destruct ys as [|y ys]; [done|]. intros _. unfold XSIMD.hadd. simpl.
  by rewrite sadd_0_l, foldl_sadd_acc.
Qed.

Lemma batch_sums_flat inc input cnt s :
  0 < inc →
  batch_sums inc input cnt s =
  foldl sadd s (exp_at input <$> seq 0 (cnt * inc)).
Proof.
  intros Hinc. unfold batch_sums. induction cnt as [|cnt IH]; [done|].
  rewrite seq_S, foldl_app. simpl. rewrite IH.
  rewrite hadd_acc by (destruct inc; [lia|done]).
  replace (inc + cnt * inc) with (cnt * inc + inc) by lia.
  by rewrite seq_app, fmap_app, foldl_app.
Qed.

Lemma xsimd_exp_sum_exact inc input dim :
  0 < inc → xsimd_exp_sum inc input dim = big_sum dim (exp_at input).
Proof.
  intros Hinc. unfold xsimd_exp_sum.
  destruct (vec_size_batches inc dim Hinc) as [Hvs Hvd].
  set (vec_size := dim - dim `mod` inc) in *. cbv zeta.
  rewrite batch_sums_flat by done. rewrite <-Hvs.
  rewrite <-foldl_app, <-fmap_app, <-seq_app.
  replace (vec_size + (dim - vec_size)) with dim by lia.
  by rewrite big_sum_foldl.
Qed.
End ExactSum.

(** C6. In exact arithmetic (addition associative, zero neutral on the
    left), for every input and every [dim], multiple of the batch size or
    not, the scalar and the xsimd [softmax] are defined, write
    [out[i] = exp(x[i]) / Σ_{j < dim} exp(x[j])] for every [i < dim], with
    no subtraction of a maximum, leave the rest of the buffer, and so
    return the same buffer. *)
Theorem softmax_backends_agree inc input out dim :
  (∀ a b c : T, a ⊕ (b ⊕ c) = (a ⊕ b) ⊕ c) →
  (∀ a : T, szero ⊕ a = a) →
  0 < inc → dim ≤ length input → dim ≤ length out →
  ∃ out',
    STL.softmax input out dim = Some out' ∧
    XSIMD.softmax inc input out dim = Some out' ∧
    length out' = length out ∧
    (∀ i, i < dim → out' !! i = Some (softmax_spec input dim i)) ∧
    (∀ i, dim ≤ i → out' !! i = out !! i).
Proof.
  intros Hassoc Hzero Hinc Hin Hout.
  destruct (STL_softmax_spec input out dim Hin Hout)
    as (o1 & E1 & Hl1 & Hd1 & Hr1).
  destruct (XSIMD_softmax_own_sum inc input out dim Hinc Hin Hout)
    as (o2 & E2 & Hl2 & Hd2 & Hr2).
  assert (o2 = o1) as ->.
  { apply list_eq. intros i. destruct (decide (i < dim)).
    - rewrite Hd1, Hd2 by done.
      by rewrite (xsimd_exp_sum_exact Hassoc Hzero).
    - rewrite Hr1, Hr2 by lia. done. }
  exists o1. by split_and!.
Qed.
End SoftmaxFacts.

(** *** Binary64 arithmetic: the two sums differ *)

(** C6, as stated for the element type [double]: with batches of two
    lanes and the input [37 0 0 0], the scalar backend adds [1] three times
    to [e^37], which rounding absorbs, and divides by [e^37]; the xsimd
    backend adds the batch sum [1 + 1] and divides by [e^37 + 2].  The two
    outputs differ already in the first position. *)
Lemma softmax_backends_differ_in_double :
  let S := double_Scalar exp_0_37 (λ x, x) in
  let x := [37; 0; 0; 0]%float in
  ∃ o1 o2,
    STL.softmax (H := S) x [0; 0; 0; 0]%float 4 = Some o1 ∧
    XSIMD.softmax (H := S) 2 x [0; 0; 0; 0]%float 4 = Some o2 ∧
    o1 !! 0 = Some 1%float ∧
    o2 !! 0 = Some 0.99999999999999978%float ∧
    o1 ≠ o2.
Proof.
  do 2 eexists. split_and!; [vm_compute; reflexivity..|].
  intros Heq.
  apply (f_equal (λ o, PrimFloat.eqb 1 (nth 0 o 0%float))) in Heq.
  vm_compute in Heq. discriminate.
Qed.

(** * Concrete instances *)

Lemma covers_singleton {A : Type} (row : list A) n :
  n ≤ length row → covers [row] 1 n.
Proof.
  intros Hn i Hi. exists row. destruct i; [done|lia].
Qed.

(** The LSTM loaders on a 1-by-1 layer. *)
Lemma LSTM_setVals_gate_order_witness :
  let l := LSTM.ctor (T:=Z) 1 1 in
  let wVals := [[1; 2; 3; 4]]%Z in
  let uVals := [[5; 6; 7; 8]]%Z in
  let bVals := [9; 10; 11; 12]%Z in
  LSTM_wf l ∧ covers wVals 1 4 ∧ covers uVals 1 4 ∧ 4 ≤ length bVals ∧
  ∃ lW lU lB,
    LSTM.setWVals wVals l = Some lW ∧ LSTM.setUVals uVals l = Some lU ∧
    LSTM.setBVals bVals l = Some lB ∧
    holds (LSTM.Wf lW) 0 0 (Some 2%Z) ∧ holds (LSTM.Uc lU) 0 0 (Some 7%Z) ∧
    vholds (LSTM.bo lB) 0 (Some 12%Z).
Proof.
  intros l wVals uVals bVals.
  assert (LSTM_wf l) as Hwf by apply ctor_wf.
  assert (covers wVals 1 4) as HW by (apply covers_singleton; simpl; lia).
  assert (covers uVals 1 4) as HU by (apply covers_singleton; simpl; lia).
  assert (4 ≤ length bVals) as HB by (simpl; lia).
  split_and!; [done..|].
  destruct (LSTM_setVals_gate_order l wVals uVals bVals Hwf HW HU HB)
    as (lW & lU & lB & EW & EU & EB & Hall).
  exists lW, lU, lB. split_and!; [done..| | |].
  - destruct (Hall 0) as (Hw & _); [simpl; lia|].
    destruct (Hw 0) as (_ & Hf & _); [simpl; lia|]. exact Hf.
  - destruct (Hall 0) as (_ & Hu & _); [simpl; lia|].
    destruct (Hu 0) as (_ & _ & Hc & _); [simpl; lia|]. exact Hc.
  - destruct (Hall 0) as (_ & _ & _ & _ & _ & Ho); [simpl; lia|]. exact Ho.
Defined.

(** The GRU loaders on a 1-by-1 layer. *)
Lemma GRU_setVals_gate_order_witness :
  let l := GRU.ctor (T:=Z) 1 1 in
  let wVals := [[1; 2; 3]]%Z in
  let uVals := [[4; 5; 6]]%Z in
  let bVals := [[7; 8; 9]; [10; 11; 12]]%Z in
  GRU_wf l ∧ covers wVals 1 3 ∧ covers uVals 1 3 ∧ covers bVals 2 3 ∧
  ∃ lW lU lB,
    GRU.setWVals wVals l = Some lW ∧ GRU.setUVals uVals l = Some lU ∧
    GRU.setBVals bVals l = Some lB ∧
    holds (GRU.wVec_r lW) 0 0 (Some 2%Z) ∧
    holds (GRU.uVec_c lU) 0 0 (Some 6%Z) ∧
    holds (GRU.bVec_z lB) 0 1 (Some 10%Z).
Proof.
  intros l wVals uVals bVals.
  assert (GRU_wf l) as Hwf by apply GRU_ctor_wf.
  assert (covers wVals 1 3) as HW by (apply covers_singleton; simpl; lia).
  assert (covers uVals 1 3) as HU by (apply covers_singleton; simpl; lia).
  assert (covers bVals 2 3) as HB.
  { intros i Hi. destruct i as [|[|i]]; [eexists; split; [done|simpl; lia]..|lia]. }
  split_and!; [done..|].
  destruct (GRU_setVals_gate_order l wVals uVals bVals Hwf HW HU HB)
    as (lW & lU & lB & EW & EU & EB & Hall).
  exists lW, lU, lB. split_and!; [done..| | |].
  - destruct (Hall 0) as (Hw & _); [simpl; lia|].
    destruct (Hw 0) as (_ & Hr & _); [simpl; lia|]. exact Hr.
  - destruct (Hall 0) as (_ & Hu & _); [simpl; lia|].
    destruct (Hu 0) as (_ & _ & Hc); [simpl; lia|]. exact Hc.
  - destruct (Hall 0) as (_ & _ & Hb); [simpl; lia|].
    destruct (Hb 1) as (Hz & _); [lia|]. exact Hz.
Defined.

(** An LSTM layer with loaded input weights: after a forward call and a
    reset it answers as the layer that was only configured. *)
Lemma LSTM_reset_state_pure_witness :
  let l0 := LSTM.with_W (LSTM.ctor (T:=Z) 1 1)
              [[1%Z]] [[1%Z]] [[1%Z]] [[1%Z]] in
  let l := (LSTM.forward [2%Z] l0).1 in
  LSTM.setWVals [[1; 1; 1; 1]]%Z (LSTM.ctor 1 1) = Some l0 ∧
  LSTM_reachable l ∧ LSTM_configured l0 ∧ same_config l l0 ∧
  ∃ lr, LSTM.reset l = Some lr ∧
    LSTM.ht1 lr = Eigen.VZero (LSTM.out_size l) ∧
    LSTM.ct1 lr = Eigen.VZero (LSTM.out_size l) ∧
    (LSTM.forward [5%Z] lr).2 = (LSTM.forward [5%Z] l0).2.
Proof.
  intros l0 l.
  assert (LSTM.setWVals [[1; 1; 1; 1]]%Z (LSTM.ctor 1 1) = Some l0) as Hset
    by reflexivity.
  assert (LSTM_configured l0) as Hconf.
  { eapply conf_setW; [apply (conf_ctor 1 1)|exact Hset]. }
  assert (LSTM_reachable l) as Hreach.
  { apply reach_forward. eapply reach_setW; [apply (reach_ctor 1 1)|].
    exact Hset. }
  assert (same_config l l0) as Hsame by (by unfold same_config).
  split_and!; [done..|].
  exact (LSTM_reset_state_pure l l0 [5%Z] Hreach Hconf Hsame).
Defined.

(** A dense layer with two inputs and one output:
    [2 * 4 + 3 * 5 + 10 = 33]. *)
Lemma Dense_forward_affine_witness :
  let d := Dense.ctor (T:=Z) 2 1 in
  Dense_wf d ∧ covers [[2; 3]]%Z 1 2 ∧
  ∃ d1 d2 out',
    Dense.setWeights [[2; 3]]%Z d = Some d1 ∧
    Dense.setBias [10%Z] d1 = Some d2 ∧
    Dense.forward [4; 5]%Z [0%Z] d2 = Some out' ∧
    out' !! 0 = Some 33%Z.
Proof.
  intros d.
  assert (Dense_wf d) as Hwf by apply Dense_ctor_wf.
  assert (covers [[2; 3]]%Z 1 2) as Hcov
    by (apply covers_singleton; simpl; lia).
  split_and!; [done..|].
  destruct (Dense_forward_affine d [[2; 3]]%Z [10%Z] [4; 5]%Z [0%Z])
    as (d1 & d2 & out' & E1 & E2 & E3 & _ & Hout & _);
    [done|done|simpl; lia..|].
  exists d1, d2, out'. split_and!; [done..|].
  rewrite (Hout 0) by (simpl; lia). reflexivity.
Defined.

(** Integer arithmetic is exact: the two backends agree on three values
    with batches of two lanes. *)
Lemma softmax_backends_agree_witness :
  ∃ out',
    STL.softmax [0; 1; 2]%Z [9; 9; 9; 9]%Z 3 = Some out' ∧
    XSIMD.softmax 2 [0; 1; 2]%Z [9; 9; 9; 9]%Z 3 = Some out' ∧
    length out' = 4 ∧
    (∀ i, i < 3 → out' !! i = Some (softmax_spec [0; 1; 2]%Z 3 i)) ∧
    (∀ i, 3 ≤ i → out' !! i = [9; 9; 9; 9]%Z !! i).
Proof.
  apply (softmax_backends_agree (H:=Z_Scalar) 2 [0; 1; 2]%Z [9; 9; 9; 9]%Z 3
           Z.add_assoc Z.add_0_l); simpl; lia.
Defined.

(** The [lstm] configuration on a model that returns its input, with a
    reference equal to the input: the test succeeds. *)
Lemma runTest_verdict_witness :
  ∃ test, Tests.tests !! "lstm" = Some test ∧
  ∃ code out,
    Tests.runTest (λ m, m) echo_forward test () [0.5; 0.25]%float
      [0.5; 0.25]%float = Some (code, out) ∧
    code = 0%Z.
Proof.
  eexists. split; [reflexivity|].
  edestruct (runTest_verdict (λ m : unit, m) echo_forward)
    as (code & out & Hrun & Hcode & _); [|exists code, out; split; [exact Hrun|]].
  - simpl. lia.
  - apply Hcode. intros e He. vm_compute in He.
    repeat (apply elem_of_cons in He as [->|He]; [reflexivity|]).
    by apply elem_of_nil in He.
Defined.


(** * Further properties of the layers and kernels *)

(** ** Loops that returned *)

(** Every iteration of a loop that returned was run, from a state that
    satisfies what the body preserves, and returned. *)
Lemma for_loop_reaches {St : Type} (P : St → Prop) body lo n (s s' : St) :
  (∀ j t t', P t → body j t = Some t' → P t') →
  P s → for_loop body lo n s = Some s' →
  ∀ j, lo ≤ j < lo + n → ∃ t t', P t ∧ body j t = Some t'.
Proof.
  intros Hbody. revert lo s. induction n as [|n IH]; intros lo s HP Hs j Hj.
  - lia.
  - simpl in Hs. destruct (body lo s) as [t|] eqn:Ht; [|done]. simpl in Hs.
    destruct (decide (j = lo)) as [->|Hne]; [by eauto|].
    eapply (IH (S lo) t); [by eauto|done|lia].
Qed.

(** [loop_reaches P HP0 Hloop j t t' Ht Hbody]: from the loop [Hloop] that
    returned, the iteration [j]; leaves the preservation of [P] by the
    body, the range of [j], and the goal with that iteration. *)
Ltac loop_reaches P HP0 Hloop j t t' Ht Hbody :=
  lazymatch type of Hloop with
  | for_loop ?body ?lo ?n ?s = Some ?s' =>
      let Hp := fresh "Hpres" in
      assert (∀ idx st st', P st → body idx st = Some st' → P st') as Hp;
      [ cbv beta
      | destruct (for_loop_reaches P body lo n s s' Hp HP0 Hloop j)
          as (t & t' & Ht & Hbody); [ | cbv beta in Hbody ] ]
  end.

(** ** Dense: getters, bounds, order of the setters *)

Section DenseMore.
Context {T : Type} `{Scalar T}.
Implicit Types (s : Dense1.Dense1 T) (d : Dense.Dense T)
  (row input out b : list T) (w : list (list T)).

(** A loaded unit is determined by its size, its bias and the row. *)
Lemma sub_loaded_eq n row s :
  sub_loaded n row s → n ≤ length row →
  s = {| Dense1.in_size := n; Dense1.bias := Dense1.bias s;
         Dense1.weights := Some <$> take n row |}.
Proof.
  intros (Hn & Hl & Hw) Hrow. destruct s as [n' bv wts]. simpl in *.
  subst n'. f_equal. apply list_eq. intros j.
  rewrite list_lookup_fmap. destruct (decide (j < n)) as [Hj|Hj].
  - rewrite Hw by done. by rewrite lookup_take_lt.
  - rewrite lookup_take_ge by lia. simpl. apply lookup_ge_None. lia.
Qed.

Lemma Dense1_setWeights_defined s row n :
  sub_sized n s → is_Some (Dense1.setWeights row s) → n ≤ length row.
Proof.
  intros [Hn Hl] [s' Hs']. unfold Dense1.setWeights in Hs'.
  destruct (for_loop _ 0 (Dense1.in_size s) (Dense1.weights s))
    as [wts|] eqn:Hloop; [|done].
  destruct n as [|n]; [lia|].
  loop_reaches (λ _ : list (option T), True) I Hloop n t t' Ht Hbody;
    [done|lia|].
  destruct (row !! n) as [v|] eqn:Hv; [|done].
  apply lookup_lt_Some in Hv. lia.
Qed.

(** X1. After [setWeights(w)] every getter returns the value loaded,
    [getWeight(i, k) = w[i][k]] for all [i < out_size], [k < in_size], and
    the biases are the ones the layer had. *)
Theorem Dense_getWeight_roundtrip d w :
  Dense_wf d → covers w (Dense.out_size d) (Dense.in_size d) →
  ∃ d1, Dense.setWeights w d = Some d1 ∧
    ∀ i, i < Dense.out_size d →
      Dense.getBias d1 i = Dense.getBias d i ∧
      ∀ k, k < Dense.in_size d →
        is_Some (at2 w i k) ∧ Dense.getWeight d1 i k = at2 w i k.
Proof.
  intros Hwf Hcov.
  destruct (Dense_setWeights_loaded d w Hwf Hcov) as (subs & -> & Hl & Hsubs).
  eexists. split; [reflexivity|]. intros i Hi.
  destruct (Hsubs i Hi) as (s & s0 & row & Hs & Hs0 & Hrow & Hld & Hb).
  unfold Dense.getBias, Dense.getWeight, Dense1.getBias, Dense1.getWeight.
  simpl. rewrite Hs, Hs0. simpl. split; [done|]. intros k Hk.
  destruct (Hcov i Hi) as (row' & Hrow' & Hlen). simplify_eq.
  destruct Hld as (_ & _ & Hw). rewrite Hw by done.
  unfold at2. rewrite Hrow. simpl.
  destruct (lookup_lt_is_Some_2 row k) as [v Hv]; [lia|].
  rewrite Hv. simpl. eauto.
Qed.

(** X2. After [setBias(b)] every [getBias(i)] returns [b[i]] and every
    weight getter returns what it returned before. *)
Theorem Dense_getBias_roundtrip d b :
  length (Dense.subLayers d) = Dense.out_size d →
  Dense.out_size d ≤ length b →
  ∃ d2, Dense.setBias b d = Some d2 ∧
    ∀ i, i < Dense.out_size d →
      is_Some (b !! i) ∧ Dense.getBias d2 i = b !! i ∧
      ∀ k, Dense.getWeight d2 i k = Dense.getWeight d i k.
Proof.
  intros Hlen Hb.
  destruct (Dense_setBias_set d b Hlen Hb) as (subs & -> & Hl & Hsubs).
  eexists. split; [reflexivity|]. intros i Hi.
  destruct (Hsubs i Hi) as (s0 & bv & Hs0 & Hbv & Hs).
  unfold Dense.getBias, Dense.getWeight, Dense1.getBias, Dense1.getWeight.
  simpl. rewrite Hs, Hs0, Hbv. simpl. eauto.
Qed.

Lemma Dense1_setWeights_sized s s' row n :
  sub_sized n s → Dense1.setWeights row s = Some s' → sub_sized n s'.
Proof.
  intros [Hn Hl] Hs'. unfold Dense1.setWeights in Hs'.
  destruct (for_loop _ 0 (Dense1.in_size s) (Dense1.weights s))
    as [wts|] eqn:Hloop; [|done]. simplify_eq/=.
  split; simpl; [done|].
  revert Hloop. apply (for_loop_preserves (λ t, length t = Dense1.in_size s));
    [|done].
  intros j t t' Ht Hbody. destruct (row !! j); [|done]. simpl in Hbody.
  apply store_inv in Hbody as [_ ->]. by rewrite length_insert.
Qed.

(** X3. [setWeights] is defined exactly when the argument has a row of at
    least [in_size] values for each of the [out_size] units. *)
Theorem Dense_setWeights_defined_iff d w :
  Dense_wf d →
  is_Some (Dense.setWeights w d) ↔
  covers w (Dense.out_size d) (Dense.in_size d).
Proof.
  intros Hwf. split.
  - intros [d1 Hd1] i Hi. unfold Dense.setWeights in Hd1.
    destruct (for_loop _ 0 (Dense.out_size d) (Dense.subLayers d))
      as [subs|] eqn:Hloop; [|done].
    destruct Hwf as [Hlen Hsz].
    loop_reaches
      (λ t : list (Dense1.Dense1 T),
         ∀ i s, t !! i = Some s → sub_sized (Dense.in_size d) s)
      Hsz Hloop i t t' Ht Hbody; [|lia|].
    + intros j t t' Ht Hbody i' s' Hs'.
      destruct (w !! j) as [row|]; [|done]. simpl in Hbody.
      destruct (t !! j) as [sub|] eqn:Hsub; [|done]. simpl in Hbody.
      destruct (Dense1.setWeights row sub) as [sub'|] eqn:Hset; [|done].
      simpl in Hbody. apply store_inv in Hbody as [Hj ->].
      destruct (decide (i' = j)) as [->|Hne].
      * rewrite list_lookup_insert_eq in Hs' by done. simplify_eq.
        eapply Dense1_setWeights_sized; eauto.
      * rewrite list_lookup_insert_ne in Hs' by done. eauto.
    + destruct (w !! i) as [row|]; [|done]. simpl in Hbody.
      destruct (t !! i) as [sub|] eqn:Hsub; [|done]. simpl in Hbody.
      destruct (Dense1.setWeights row sub) as [sub'|] eqn:Hset; [|done].
      exists row. split; [done|].
      eapply Dense1_setWeights_defined; eauto.
  - intros Hcov.
    destruct (Dense_setWeights_loaded d w Hwf Hcov) as (subs & -> & _). eauto.
Qed.



(** The layer [setWeights(w)] returns, unit by unit. *)
Lemma Dense_setWeights_closed d w :
  Dense_wf d → covers w (Dense.out_size d) (Dense.in_size d) →
  ∃ subs,
    Dense.setWeights w d =
      Some {| Dense.in_size := Dense.in_size d;
              Dense.out_size := Dense.out_size d;
              Dense.subLayers := subs |} ∧
    length subs = Dense.out_size d ∧
    ∀ i, i < Dense.out_size d → ∃ s0 row,
      Dense.subLayers d !! i = Some s0 ∧ w !! i = Some row ∧
      subs !! i = Some {| Dense1.in_size := Dense.in_size d;
                          Dense1.bias := Dense1.bias s0;
                          Dense1.weights := Some <$> take (Dense.in_size d) row |}.
Proof.
  intros Hwf Hcov.
  destruct (Dense_setWeights_loaded d w Hwf Hcov) as (subs & E & Hl & Hsubs).
  exists subs. split_and!; [done..|]. intros i Hi.
  destruct (Hsubs i Hi) as (s & s0 & row & Hs & Hs0 & Hrow & Hld & Hb).
  destruct (Hcov i Hi) as (row' & Hrow' & Hlen). simplify_eq.
  exists s0, row. split_and!; [done..|].
  rewrite Hs. f_equal. rewrite <-Hb. by apply sub_loaded_eq.
Qed.

Lemma Dense_subLayers_eq (subs1 subs2 : list (Dense1.Dense1 T)) n :
  length subs1 = n → length subs2 = n →
  (∀ i, i < n → subs1 !! i = subs2 !! i) → subs1 = subs2.
Proof.
  intros H1 H2 Heq. apply list_eq. intros i.
  destruct (decide (i < n)); [by apply Heq|].
  rewrite !lookup_ge_None_2 by lia. done.
Qed.

(** X5. The two setters commute: weights then biases, or biases then
    weights, give the same layer. *)
Theorem Dense_setters_commute d w b :
  Dense_wf d → covers w (Dense.out_size d) (Dense.in_size d) →
  Dense.out_size d ≤ length b →
  is_Some (Dense.setWeights w d ≫= Dense.setBias b) ∧
  Dense.setWeights w d ≫= Dense.setBias b =
  Dense.setBias b d ≫= Dense.setWeights w.
Proof.
  intros Hwf Hcov Hb.
  destruct (Dense_setWeights_closed d w Hwf Hcov) as (subs1 & -> & Hl1 & H1).
  simpl.
  destruct (Dense_setBias_set
    {| Dense.in_size := Dense.in_size d; Dense.out_size := Dense.out_size d;
       Dense.subLayers := subs1 |} b) as (subs2 & -> & Hl2 & H2); [done..|].
  destruct (Dense_setBias_set d b) as (subsB & -> & HlB & HB);
    [by destruct Hwf|done|]. simpl.
  set (dB := {| Dense.in_size := Dense.in_size d;
                Dense.out_size := Dense.out_size d;
                Dense.subLayers := subsB |}).
  assert (Dense_wf dB) as HwfB.
  { split; [done|]. simpl. intros i s Hs.
    assert (i < Dense.out_size d) as Hi
      by (rewrite <-HlB; by eapply lookup_lt_Some).
    destruct (HB i Hi) as (s0 & bv & Hs0 & _ & Hs'). simplify_eq.
    destruct Hwf as [_ Hsz]. destruct (Hsz i s0 Hs0). by split. }
  destruct (Dense_setWeights_closed dB w HwfB Hcov) as (subsW & -> & HlW & HW).
  split; [eauto|]. simpl. do 2 f_equal.
  apply (Dense_subLayers_eq _ _ (Dense.out_size d)); [done..|].
  intros i Hi. simpl in *.
  destruct (H1 i Hi) as (s0 & row & Hs0 & Hrow & Hs1).
  destruct (H2 i Hi) as (s1 & bv & Hs1' & Hbv & ->).
  destruct (HW i Hi) as (sB & row' & HsB & Hrow' & ->).
  destruct (HB i Hi) as (s0' & bv' & Hs0' & Hbv' & HsB').
  simplify_eq. done.
Qed.

(** X6. The last load wins: loading [w2] after [w1] gives the layer that
    loading [w2] alone gives. *)
Theorem Dense_setWeights_last_wins d w1 w2 :
  Dense_wf d →
  covers w1 (Dense.out_size d) (Dense.in_size d) →
  covers w2 (Dense.out_size d) (Dense.in_size d) →
  is_Some (Dense.setWeights w2 d) ∧
  Dense.setWeights w1 d ≫= Dense.setWeights w2 = Dense.setWeights w2 d.
Proof.
  intros Hwf Hc1 Hc2.
  destruct (Dense_setWeights_closed d w1 Hwf Hc1) as (subs1 & -> & Hl1 & H1).
  destruct (Dense_setWeights_closed d w2 Hwf Hc2) as (subs2 & -> & Hl2 & H2).
  split; [eauto|]. simpl.
  set (d1 := {| Dense.in_size := Dense.in_size d;
                Dense.out_size := Dense.out_size d;
                Dense.subLayers := subs1 |}).
  assert (Dense_wf d1) as Hwf1.
  { split; [done|]. simpl. intros i s Hs.
    assert (i < Dense.out_size d) as Hi
      by (rewrite <-Hl1; by eapply lookup_lt_Some).
    destruct (H1 i Hi) as (s0 & row & _ & Hrow & Hs'). simplify_eq.
    destruct (Hc1 i Hi) as (row' & ? & ?). simplify_eq.
    split; simpl; [done|]. rewrite length_fmap, length_take. lia. }
  destruct (Dense_setWeights_closed d1 w2 Hwf1 Hc2) as (subs3 & -> & Hl3 & H3).
  do 2 f_equal.
  apply (Dense_subLayers_eq _ _ (Dense.out_size d)); [done..|].
  intros i Hi. simpl in *.
  destruct (H1 i Hi) as (s0 & row1 & Hs0 & Hrow1 & Hs1).
  destruct (H2 i Hi) as (s0' & row2 & Hs0' & Hrow2 & ->).
  destruct (H3 i Hi) as (s1 & row2' & Hs1' & Hrow2' & ->).
  simplify_eq. done.
Qed.
End DenseMore.

(** Steps through the binds of a body that returned. *)
Ltac bind_cases Ht :=
  repeat match type of Ht with
  | context [?o ≫= _] =>
      let E := fresh "E" in destruct o eqn:E; simpl in Ht; [|done]
  end; simplify_eq/=.

(** ** LSTM: what the loaders and [reset] keep, and how they compose *)

Section LSTMMore.
Context {T : Type} `{Scalar T}.
Import Eigen LSTM.
Implicit Types (l : LSTMLayer T) (vals w u : list (list T)) (b : list T).

(** A matrix of given dimensions is determined by its coefficients. *)
Lemma matrix_eq (M M' : Matrix T) rows cols :
  has_dims M rows cols → has_dims M' rows cols →
  (∀ k i, k < rows → i < cols → coeff M k i = coeff M' k i) → M = M'.
Proof.
  intros [Hl Hr] [Hl' Hr'] Hco. apply list_eq. intros k.
  destruct (decide (k < rows)) as [Hk|Hk];
    [|by rewrite !lookup_ge_None_2 by lia].
  destruct (lookup_lt_is_Some_2 M k) as [row Hrow]; [lia|].
  destruct (lookup_lt_is_Some_2 M' k) as [row' Hrow']; [lia|].
  rewrite Hrow, Hrow'. f_equal.
  pose proof (proj1 (Forall_lookup _ _) Hr k row Hrow) as Hlen.
  pose proof (proj1 (Forall_lookup _ _) Hr' k row' Hrow') as Hlen'.
  simpl in *. apply list_eq. intros i.
  destruct (decide (i < cols)) as [Hi|Hi];
    [|by rewrite !lookup_ge_None_2 by lia].
  specialize (Hco k i Hk Hi). unfold coeff in Hco.
  by rewrite Hrow, Hrow' in Hco.
Qed.

Lemma filled_unique vals off rows cols (M M' : Matrix T) :
  has_dims M rows cols ∧ filled vals off rows M cols 0 →
  has_dims M' rows cols ∧ filled vals off rows M' cols 0 →
  M = M'.
Proof.
  intros [Hd Hf] [Hd' Hf']. apply (matrix_eq _ _ rows cols); [done..|].
  intros k i Hk Hi. rewrite Hf, Hf' by (done || by left). done.
Qed.

Lemma loaded4_unique vals rows cols (a b c d a' b' c' d' : Matrix T) :
  loaded4 vals rows cols cols 0 a b c d →
  loaded4 vals rows cols cols 0 a' b' c' d' →
  a = a' ∧ b = b' ∧ c = c' ∧ d = d'.
Proof.
  intros (Ha & Hb & Hc & Hd) (Ha' & Hb' & Hc' & Hd').
  split_and!; eapply filled_unique; eauto.
Qed.

Lemma vloaded4_unique (bVals : list T) rows (a b c d a' b' c' d' : Vector T) :
  vloaded4 bVals rows rows a b c d → vloaded4 bVals rows rows a' b' c' d' →
  a = a' ∧ b = b' ∧ c = c' ∧ d = d'.
Proof.
  assert (∀ off (v v' : Vector T),
    length v = rows ∧ vfilled bVals off v rows →
    length v' = rows ∧ vfilled bVals off v' rows → v = v') as Huniq.
  { intros off v v' [Hl Hf] [Hl' Hf']. apply list_eq. intros k.
    destruct (decide (k < rows));
      [by rewrite Hf, Hf'|by rewrite !lookup_ge_None_2 by lia]. }
  intros (Ha & Hb & Hc & Hd) (Ha' & Hb' & Hc' & Hd').
  split_and!; eapply Huniq; eauto.
Qed.

Lemma with_W_wf l w wi wf wc wo :
  LSTM_wf l →
  loaded4 w (out_size l) (in_size l) (in_size l) 0 wi wf wc wo →
  LSTM_wf (with_W l wi wf wc wo).
Proof.
  intros [] ((? & _) & (? & _) & (? & _) & (? & _)). by split.
Qed.

Lemma with_U_wf l u ui uf uc uo :
  LSTM_wf l →
  loaded4 u (out_size l) (out_size l) (out_size l) 0 ui uf uc uo →
  LSTM_wf (with_U l ui uf uc uo).
Proof.
  intros [] ((? & _) & (? & _) & (? & _) & (? & _)). by split.
Qed.

Lemma with_b_wf l b vi vf vc vo :
  LSTM_wf l → vloaded4 b (out_size l) (out_size l) vi vf vc vo →
  LSTM_wf (with_b l vi vf vc vo).
Proof.
  intros [] ((? & _) & (? & _) & (? & _) & (? & _)). by split.
Qed.

(** X7. A loader writes its own four buffers and nothing else: the sizes,
    the other weights and biases, the state vectors [ht1] and [ct1] and the
    scratch vectors of the layer it returns are those of the layer it was
    called on.  So loading weights in mid-stream does not reset the
    state. *)
Theorem LSTM_setters_frame l w u b :
  (∀ l', setWVals w l = Some l' →
     ∃ wi wf wc wo, l' = with_W l wi wf wc wo) ∧
  (∀ l', setUVals u l = Some l' →
     ∃ ui uf uc uo, l' = with_U l ui uf uc uo) ∧
  (∀ l', setBVals b l = Some l' →
     ∃ vi vf vc vo, l' = with_b l vi vf vc vo).
Proof.
  split_and!; intros l'.
  - unfold setWVals.
    set (P := λ t : LSTMLayer T, ∃ wi wf wc wo, t = with_W l wi wf wc wo).
    apply (for_loop_preserves P).
    + intros i t t' Ht. apply (for_loop_preserves P); [|done].
      intros k v v' (wi & wf & wc & wo & ->) Hv. bind_cases Hv.
      unfold P. eauto.
    + exists (Wi l), (Wf l), (Wc l), (Wo l). by destruct l.
  - unfold setUVals.
    set (P := λ t : LSTMLayer T, ∃ ui uf uc uo, t = with_U l ui uf uc uo).
    apply (for_loop_preserves P).
    + intros i t t' Ht. apply (for_loop_preserves P); [|done].
      intros k v v' (ui & uf & uc & uo & ->) Hv. bind_cases Hv.
      unfold P. eauto.
    + exists (Ui l), (Uf l), (Uc l), (Uo l). by destruct l.
  - unfold setBVals.
    set (P := λ t : LSTMLayer T, ∃ vi vf vc vo, t = with_b l vi vf vc vo).
    apply (for_loop_preserves P).
    + intros k v v' (vi & vf & vc & vo & ->) Hv. bind_cases Hv.
      unfold P. eauto.
    + exists (bi l), (bf l), (bc l), (bo l). by destruct l.
Qed.

(** X8. The three loaders commute: on a layer with constructor-sized
    buffers and buffers that cover the reads, any two of [setWVals],
    [setUVals], [setBVals] give the same layer in either order. *)
Theorem LSTM_setters_commute l w u b :
  LSTM_wf l →
  covers w (in_size l) (4 * out_size l) →
  covers u (out_size l) (4 * out_size l) →
  4 * out_size l ≤ length b →
  is_Some ((setWVals w l ≫= setUVals u) ≫= setBVals b) ∧
  setWVals w l ≫= setUVals u = setUVals u l ≫= setWVals w ∧
  setWVals w l ≫= setBVals b = setBVals b l ≫= setWVals w ∧
  setUVals u l ≫= setBVals b = setBVals b l ≫= setUVals u.
Proof.
  intros Hwf HW HU HB.
  destruct (setWVals_loaded l w Hwf HW) as (wi & wf & wc & wo & EW & LW).
  destruct (setUVals_loaded l u Hwf HU) as (ui & uf & uc & uo & EU & LU).
  destruct (setBVals_loaded l b Hwf HB) as (vi & vf & vc & vo & EB & LB).
  pose proof (with_W_wf l w _ _ _ _ Hwf LW) as HwfW.
  pose proof (with_U_wf l u _ _ _ _ Hwf LU) as HwfU.
  pose proof (with_b_wf l b _ _ _ _ Hwf LB) as HwfB.
  destruct (setUVals_loaded _ u HwfW HU)
    as (ui1 & uf1 & uc1 & uo1 & EWU & LWU).
  destruct (setBVals_loaded _ b HwfW HB)
    as (vi1 & vf1 & vc1 & vo1 & EWB & LWB).
  destruct (setWVals_loaded _ w HwfU HW)
    as (wi2 & wf2 & wc2 & wo2 & EUW & LUW).
  destruct (setBVals_loaded _ b HwfU HB)
    as (vi2 & vf2 & vc2 & vo2 & EUB & LUB).
  destruct (setWVals_loaded _ w HwfB HW)
    as (wi3 & wf3 & wc3 & wo3 & EBW & LBW).
  destruct (setUVals_loaded _ u HwfB HU)
    as (ui3 & uf3 & uc3 & uo3 & EBU & LBU).
  pose proof (with_U_wf _ u _ _ _ _ HwfW LWU) as HwfWU.
  destruct (setBVals_loaded _ b HwfWU HB)
    as (vi4 & vf4 & vc4 & vo4 & EWUB & _).
  simpl in *.
  destruct (loaded4_unique _ _ _ _ _ _ _ _ _ _ _ LU LWU) as (-> & -> & -> & ->).
  destruct (loaded4_unique _ _ _ _ _ _ _ _ _ _ _ LU LBU) as (<- & <- & <- & <-).
  destruct (loaded4_unique _ _ _ _ _ _ _ _ _ _ _ LW LUW) as (-> & -> & -> & ->).
  destruct (loaded4_unique _ _ _ _ _ _ _ _ _ _ _ LW LBW) as (<- & <- & <- & <-).
  destruct (vloaded4_unique _ _ _ _ _ _ _ _ _ _ LB LWB) as (-> & -> & -> & ->).
  destruct (vloaded4_unique _ _ _ _ _ _ _ _ _ _ LB LUB) as (<- & <- & <- & <-).
  rewrite EW, EU, EB. simpl. rewrite EWU, EWB, EUW, EUB, EBW, EBU. simpl.
  rewrite EWUB. split_and!; [eauto|done..].
Qed.

(** X9. The last load wins: loading [w2] after [w1] gives the layer that
    loading [w2] alone gives; no coefficient of [w1] survives. *)
Theorem LSTM_setWVals_last_wins l w1 w2 :
  LSTM_wf l →
  covers w1 (in_size l) (4 * out_size l) →
  covers w2 (in_size l) (4 * out_size l) →
  is_Some (setWVals w2 l) ∧
  setWVals w1 l ≫= setWVals w2 = setWVals w2 l.
Proof.
  intros Hwf H1 H2.
  destruct (setWVals_loaded l w1 Hwf H1) as (a1 & b1 & c1 & d1 & E1 & L1).
  destruct (setWVals_loaded l w2 Hwf H2) as (a2 & b2 & c2 & d2 & E2 & L2).
  pose proof (with_W_wf l w1 _ _ _ _ Hwf L1) as Hwf1.
  destruct (setWVals_loaded _ w2 Hwf1 H2) as (a3 & b3 & c3 & d3 & E3 & L3).
  simpl in *.
  destruct (loaded4_unique _ _ _ _ _ _ _ _ _ _ _ L2 L3) as (-> & -> & -> & ->).
  rewrite E1, E2. simpl. rewrite E3. split; [eauto|done].
Qed.

(** X10. [setWVals] is defined exactly when the buffer has [in_size] rows
    of at least [4 * out_size] values: the fourth gate is read at
    [k + 3 * out_size]. *)
Theorem LSTM_setWVals_defined_iff l w :
  LSTM_wf l → 0 < out_size l →
  is_Some (setWVals w l) ↔ covers w (in_size l) (4 * out_size l).
Proof.
  intros Hwf Hout. split.
  - intros [l' Hl'] i Hi. unfold setWVals in Hl'.
    set (P := λ t : LSTMLayer T, out_size t = out_size l).
    assert (∀ i' k t t',
      P t →
      (v ← at2 w i' k; wi ← coeff_set (Wi t) k i' v;
       v ← at2 w i' (k + out_size t); wf ← coeff_set (Wf t) k i' v;
       v ← at2 w i' (k + out_size t * 2); wc ← coeff_set (Wc t) k i' v;
       v ← at2 w i' (k + out_size t * 3); wo ← coeff_set (Wo t) k i' v;
       Some (with_W t wi wf wc wo)) = Some t' → P t') as Hinner.
    { intros i' k t t' Ht Hb. bind_cases Hb. done. }
    loop_reaches P (eq_refl (out_size l)) Hl' i t t' Ht Hbody; [|lia|].
    + intros j t t' Ht. apply (for_loop_preserves P); [|done].
      intros k v v'. apply Hinner.
    + loop_reaches P Ht Hbody (out_size l - 1) v v' Hv Hb;
        [intros k v v'; apply Hinner|lia|].
      bind_cases Hb. rewrite Hv in *.
      match goal with
      | E : at2 w i (out_size l - 1 + out_size l * 3) = Some _ |- _ =>
          unfold at2 in E; destruct (w !! i) as [row|] eqn:Hrow; [|done];
          simpl in E; apply lookup_lt_Some in E
      end.
      exists row. split; [done|lia].
  - intros Hcov.
    destruct (setWVals_loaded l w Hwf Hcov) as (? & ? & ? & ? & -> & _). eauto.
Qed.

(** X11. [reset()] is idempotent and touches the state only: a second
    [reset()] returns the layer the first returned, and that layer has the
    sizes, weights and biases of the original. *)
Theorem LSTM_reset_idempotent l lr :
  reset l = Some lr →
  reset lr = Some lr ∧ same_config lr l ∧
  ∀ k, k < out_size l → ht1 lr !! k = Some szero ∧ ct1 lr !! k = Some szero.
Proof.
  unfold reset, fill. intros Hr.
  destruct (decide (out_size l ≤ length (ht1 l))) as [Hh|]; [|done].
  destruct (decide (out_size l ≤ length (ct1 l))) as [Hc|]; [|done].
  simplify_eq/=.
  assert (∀ v : Vector T, out_size l ≤ length v →
    drop (out_size l) (replicate (out_size l) szero ++ drop (out_size l) v)
    = drop (out_size l) v) as Hdrop.
  { intros v Hv. rewrite drop_app_length'; [done|by rewrite length_replicate]. }
  rewrite !decide_True
    by (rewrite length_app, length_replicate, length_drop; lia).
  simpl. rewrite !Hdrop by done. split_and!; [done|by unfold same_config|].
  intros k Hk.
  rewrite !lookup_app_l by (rewrite length_replicate; lia).
  by rewrite !lookup_replicate_2.
Qed.
End LSTMMore.

(** ** GRU: the getters on every flat index *)

Section GRUMore.
Context {T : Type} `{Scalar T}.
Import Eigen GRU.
Implicit Types (l : GRULayer T) (vals wVals uVals bVals : list (list T))
  (z r c : Matrix T).

Lemma coeff_is_Some (M : Matrix T) rows cols k i :
  has_dims M rows cols → k < rows → i < cols → is_Some (coeff M k i).
Proof.
  intros [Hl Hr] Hk Hi. unfold coeff.
  destruct (lookup_lt_is_Some_2 M k) as [row Hrow]; [lia|].
  rewrite Hrow. simpl. apply lookup_lt_is_Some.
  rewrite (proj1 (Forall_lookup _ _) Hr k row Hrow). done.
Qed.

Lemma getVal_is_Some z r c rows cols i k :
  has_dims z rows cols → has_dims r rows cols → has_dims c rows cols →
  0 < rows → i < cols → is_Some (getVal z r c rows i k).
Proof.
  intros Hz Hr Hc Hrows Hi. unfold getVal.
  rewrite (decide_False (P := rows = 0)) by lia.
  pose proof (Nat.mod_upper_bound k rows ltac:(lia)) as Hmod.
  repeat case_decide; eapply coeff_is_Some; eauto.
Qed.

Lemma getVal_off_boundary vals z r c rows cols i k :
  loaded3 vals rows cols cols 0 z r c →
  i < cols → k < 3 * rows → k ≠ rows → k ≠ 2 * rows →
  getVal z r c rows i k = at2 vals i k.
Proof.
  intros ((_ & Hz) & (_ & Hr) & (_ & Hc)) Hi Hk Hk1 Hk2. unfold getVal.
  rewrite (decide_False (P := rows = 0)) by lia.
  destruct (decide (2 * rows < k)) as [H2|H2]; cbv iota.
  - replace k with ((k - 2 * rows) + 2 * rows) at 1 by lia.
    rewrite Nat.Div0.mod_add, Nat.mod_small by lia.
    rewrite Hc by (lia || by left). f_equal. lia.
  - destruct (decide (rows < k)) as [H1|H1]; cbv iota.
    + replace k with ((k - rows) + 1 * rows) at 1 by lia.
      rewrite Nat.Div0.mod_add, Nat.mod_small by lia.
      rewrite Hr by (lia || by left). f_equal. lia.
    + rewrite Nat.mod_small by lia.
      rewrite Hz by (lia || by left). f_equal. lia.
Qed.

(** X12. Away from the two gate boundaries the three getters return what
    the setters stored: for every flat index [k < 3 * out_size] other than
    [out_size] and [2 * out_size], [getWVal(i, k) = wVals[i][k]],
    [getUVal(i, k) = uVals[i][k]] and [getBVal(i, k) = bVals[i][k]]. *)
Theorem GRU_getters_roundtrip_off_boundary l wVals uVals bVals :
  GRU_wf l →
  covers wVals (in_size l) (3 * out_size l) →
  covers uVals (out_size l) (3 * out_size l) →
  covers bVals 2 (3 * out_size l) →
  ∃ lW lU lB,
    setWVals wVals l = Some lW ∧ setUVals uVals l = Some lU ∧
    setBVals bVals l = Some lB ∧
    ∀ k, k < 3 * out_size l → k ≠ out_size l → k ≠ 2 * out_size l →
      (∀ i, i < in_size l →
         is_Some (at2 wVals i k) ∧ getWVal lW i k = at2 wVals i k) ∧
      (∀ i, i < out_size l →
         is_Some (at2 uVals i k) ∧ getUVal lU i k = at2 uVals i k) ∧
      (∀ i, i < 2 →
         is_Some (at2 bVals i k) ∧ getBVal lB i k = at2 bVals i k).
Proof.
  intros Hwf HW HU HB.
  destruct (GRU_setWVals_loaded l wVals Hwf HW) as (wz & wr & wc & -> & LW).
  destruct (GRU_setUVals_loaded l uVals Hwf HU) as (uz & ur & uc & -> & LU).
  destruct (GRU_setBVals_loaded l bVals Hwf HB) as (bz & br & bc & -> & LB).
  do 3 eexists. split_and!; [reflexivity..|].
  intros k Hk Hk1 Hk2. unfold getWVal, getUVal, getBVal. simpl.
  split_and!; intros i Hi;
    (split; [by eapply at2_covers|by eapply getVal_off_boundary]).
Qed.

(** X13. The getters reject no flat index: on a layer with
    constructor-sized buffers and [out_size > 0] they are defined for every
    [k], also for [k >= 3 * out_size]; beyond [2 * out_size] the index
    wraps around the candidate gate with period [out_size]. *)
Theorem GRU_getters_any_index l k :
  GRU_wf l → 0 < out_size l →
  (∀ i, i < in_size l → is_Some (getWVal l i k)) ∧
  (∀ i, i < out_size l → is_Some (getUVal l i k)) ∧
  (∀ i, i < 2 → is_Some (getBVal l i k)) ∧
  (2 * out_size l < k → ∀ i,
     getWVal l i (k + out_size l) = getWVal l i k ∧
     getUVal l i (k + out_size l) = getUVal l i k ∧
     getBVal l i (k + out_size l) = getBVal l i k).
Proof.
  intros [] Hout. unfold getWVal, getUVal, getBVal.
  split_and!; try (intros i Hi; eapply getVal_is_Some; eauto).
  intros Hk i. unfold getVal.
  rewrite !(decide_True (P := 2 * out_size l < k + out_size l)) by lia.
  rewrite !(decide_True (P := 2 * out_size l < k)) by lia.
  replace (k + out_size l) with (k + 1 * out_size l) by lia.
  by rewrite Nat.Div0.mod_add.
Qed.

(** X14. On a just-constructed layer every getter returns zero. *)
Theorem GRU_fresh_getters_zero n m i k :
  0 < m →
  (i < n → getWVal (ctor (T:=T) n m) i k = Some szero) ∧
  (i < m → getUVal (ctor (T:=T) n m) i k = Some szero) ∧
  (i < 2 → getBVal (ctor (T:=T) n m) i k = Some szero).
Proof.
  intros Hm. unfold getWVal, getUVal, getBVal, getVal. simpl.
  rewrite !(decide_False (P := m = 0)) by lia.
  pose proof (Nat.mod_upper_bound k m ltac:(lia)) as Hmod.
  split_and!; intros Hi; repeat case_decide; by apply coeff_Zero.
Qed.
End GRUMore.

(** ** The xsimd kernels [vCopy] and [tanh], and short [softmax] inputs *)

Section KernelsMore.
Context {T : Type} `{Scalar T}.
Implicit Types (input out o : list T).

(** The buffer whose first [dim] cells hold [f] of the input. *)
Lemma mapped_prefix_eq (f : T → T) input out o dim :
  dim ≤ length input → dim ≤ length out → length o = length out →
  (∀ j, j < dim → o !! j = f <$> input !! j) →
  (∀ j, dim ≤ j → o !! j = out !! j) →
  o = (f <$> take dim input) ++ drop dim out.
Proof.
  intros Hin Hout Hl Hd Hr. apply list_eq. intros j.
  destruct (decide (j < dim)) as [Hj|Hj].
  - rewrite lookup_app_l by (rewrite length_fmap, length_take; lia).
    rewrite list_lookup_fmap, lookup_take_lt by done. by apply Hd.
  - rewrite lookup_app_r by (rewrite length_fmap, length_take; lia).
    rewrite length_fmap, length_take, lookup_drop.
    rewrite Hr by lia. f_equal. lia.
Qed.

(** A vector loop that stores [f] of each batch. *)
Lemma vmap_loop inc (f : T → T) input body fuel cnt o :
  (∀ i t, body i t =
     x_vec ← XSIMD.load_aligned inc input i;
     XSIMD.store_aligned t i (f <$> x_vec)) →
  0 < inc → cnt ≤ fuel →
  cnt * inc ≤ length input → cnt * inc ≤ length o →
  ∃ o', for_stride body fuel 0 (cnt * inc) inc o = Some o' ∧
    length o' = length o ∧
    (∀ j, j < cnt * inc → o' !! j = f <$> input !! j) ∧
    (∀ j, cnt * inc ≤ j → o' !! j = o !! j).
Proof.
  intros Hbody Hinc Hfuel Hin Hout.
  destruct (for_stride_inv (λ c (o1 : list T),
    length o1 = length o ∧
    (∀ j, j < c * inc → o1 !! j = f <$> input !! j) ∧
    (∀ j, c * inc ≤ j → o1 !! j = o !! j))
    body fuel 0 (cnt * inc) inc cnt o) as (o' & Ho' & HP); [done..| | |].
  - split_and!; [done| |done]. intros j Hj. lia.
  - intros c o1 Hc (Hl & Hdone & Hrest). simpl. rewrite Hbody.
    assert (c * inc + inc ≤ cnt * inc) as Hle by nia.
    rewrite load_aligned_Some by lia. simpl.
    destruct (store_aligned_Some o1 (f <$> take inc (drop (c * inc) input))
                (c * inc)) as (o2 & -> & Hl2 & Hin2 & Hout2).
    { rewrite length_fmap, length_take, length_drop. lia. }
    rewrite length_fmap, length_take, length_drop in Hin2, Hout2.
    replace (inc `min` (length input - c * inc)) with inc in Hin2, Hout2
      by lia.
    eexists. split; [reflexivity|]. split_and!.
    + lia.
    + intros j Hj. destruct (decide (j < c * inc)) as [Hlt|Hge].
      * rewrite Hout2 by lia. by apply Hdone.
      * rewrite Hin2 by lia. rewrite list_lookup_fmap, lookup_batch.
        rewrite decide_True by lia.
        by replace (c * inc + (j - c * inc)) with j by lia.
    + intros j Hj. rewrite Hout2 by lia. apply Hrest. lia.
  - exists o'. done.
Qed.

(** The scalar loop over the remaining cells. *)
Lemma map_tail_loop (f : T → T) input lo n o :
  lo + n ≤ length input → lo + n ≤ length o →
  ∃ o', for_loop (λ i out, x ← input !! i; store out i (f x)) lo n o
        = Some o' ∧
    length o' = length o ∧
    (∀ j, lo ≤ j < lo + n → o' !! j = f <$> input !! j) ∧
    (∀ j, ¬ lo ≤ j < lo + n → o' !! j = o !! j).
Proof.
  intros Hin Hout.
  loop_inv (λ i (o1 : list T),
    length o1 = length o ∧
    (∀ j, lo ≤ j < i → o1 !! j = f <$> input !! j) ∧
    (∀ j, ¬ lo ≤ j < i → o1 !! j = o !! j)) o' Ho' HP.
  - split_and!; [done| |done]. intros j Hj. lia.
  - intros i o1 Hi (Hl & Hdone & Hrest).
    destruct (lookup_lt_is_Some_2 input i) as [x Hx]; [lia|].
    rewrite Hx. simpl. rewrite store_Some by lia.
    eexists. split; [reflexivity|]. split_and!.
    + by rewrite length_insert.
    + intros j Hj. destruct (decide (j = i)) as [->|Hne].
      * rewrite list_lookup_insert_eq by lia. by rewrite Hx.
      * rewrite list_lookup_insert_ne by done. apply Hdone. lia.
    + intros j Hj. rewrite list_lookup_insert_ne by lia. apply Hrest. lia.
  - exists o'. done.
Qed.

(** X15. [vCopy] copies the first [dim] values of the input into the
    output buffer and leaves the rest of it, for every [dim], multiple of
    the batch size or not, and whatever the batch size. *)
Theorem XSIMD_vCopy_copies inc input out dim :
  0 < inc → dim ≤ length input → dim ≤ length out →
  XSIMD.vCopy inc input out dim = Some (take dim input ++ drop dim out).
Proof.
  intros Hinc Hin Hout. unfold XSIMD.vCopy. rewrite decide_False by lia.
  destruct (vec_size_batches inc dim Hinc) as [Hvs Hvd].
  set (vec_size := dim - dim `mod` inc) in *.
  set (cnt := vec_size / inc) in *. cbv zeta.
  assert (cnt ≤ vec_size) as Hcnt by nia.
  destruct (vmap_loop inc (λ x, x) input
    (λ i out, vec ← XSIMD.load_aligned inc input i;
              XSIMD.store_aligned out i vec) vec_size cnt out)
    as (oA & EA & HlA & HdA & HrA); [|done || lia..|].
  { intros i t. destruct (XSIMD.load_aligned inc input i); simpl; [|done].
    by rewrite list_fmap_id. }
  rewrite <-Hvs in EA. rewrite EA. simpl.
  destruct (map_tail_loop (λ x, x) input vec_size (dim - vec_size) oA)
    as (oB & -> & HlB & HdB & HrB); [lia..|].
  f_equal. rewrite <-(list_fmap_id (take dim input)).
  apply mapped_prefix_eq; [done|done|lia| |].
  - intros j Hj. destruct (decide (j < vec_size)).
    + rewrite HrB, HdA by lia. done.
    + rewrite HdB by lia. done.
  - intros j Hj. rewrite HrB, HrA by lia. done.
Qed.

(** X16. The xsimd [tanh] writes [tanh(in[i])] for every [i < dim], in
    the batches and in the remainder alike, and leaves the rest of the
    output buffer. *)
Theorem XSIMD_tanh_elementwise inc input out dim :
  0 < inc → dim ≤ length input → dim ≤ length out →
  XSIMD.tanh inc input out dim
  = Some ((stanh <$> take dim input) ++ drop dim out).
Proof.
  intros Hinc Hin Hout. unfold XSIMD.tanh. rewrite decide_False by lia.
  destruct (vec_size_batches inc dim Hinc) as [Hvs Hvd].
  set (vec_size := dim - dim `mod` inc) in *.
  set (cnt := vec_size / inc) in *. cbv zeta.
  assert (cnt ≤ vec_size) as Hcnt by nia.
  destruct (vmap_loop inc stanh input
    (λ i out, x_vec ← XSIMD.load_aligned inc input i;
              XSIMD.store_aligned out i (XSIMD.tanh_batch x_vec))
    vec_size cnt out)
    as (oA & EA & HlA & HdA & HrA); [done|done || lia..|].
  rewrite <-Hvs in EA. rewrite EA. simpl.
  destruct (map_tail_loop stanh input vec_size (dim - vec_size) oA)
    as (oB & -> & HlB & HdB & HrB); [lia..|].
  f_equal. apply mapped_prefix_eq; [done|done|lia| |].
  - intros j Hj. destruct (decide (j < vec_size)).
    + rewrite HrB, HdA by lia. done.
    + rewrite HdB by lia. done.
  - intros j Hj. rewrite HrB, HrA by lia. done.
Qed.

Lemma for_stride_empty {St : Type} (body : nat → St → option St) fuel lo inc
  (s : St) :
  for_stride body fuel lo lo inc s = Some s.
Proof. destruct fuel; simpl; by rewrite decide_False by lia. Qed.

(** X17. On inputs shorter than one batch the xsimd [softmax] is the
    scalar [softmax], in any arithmetic: the vector loops do not run. *)
Theorem softmax_short_input inc input out dim :
  dim < inc → XSIMD.softmax inc input out dim = STL.softmax input out dim.
Proof.
  intros Hdim. unfold XSIMD.softmax, STL.softmax.
  rewrite decide_False by lia. rewrite Nat.mod_small by done.
  rewrite Nat.sub_diag. cbv zeta. rewrite Nat.sub_0_r.
  rewrite !for_stride_empty. simpl.
  by destruct (for_loop _ 0 dim (out, szero)) as [[o s]|].
Qed.

(** X18. The scalar [softmax] is defined exactly when both buffers have
    at least [size] cells; on an empty range it returns the output buffer
    as it was. *)
Theorem STL_softmax_defined_iff input out size :
  (is_Some (STL.softmax input out size) ↔
   size ≤ length input ∧ size ≤ length out) ∧
  STL.softmax input out 0 = Some out.
Proof.
  split; [|done]. split.
  - intros [o' Ho']. unfold STL.softmax in Ho'.
    destruct (for_loop _ 0 size (out, szero)) as [[o1 s1]|] eqn:Hloop;
      [|done].
    destruct size as [|n]; [lia|].
    loop_reaches (λ st : list T * T, length st.1 = length out)
      (eq_refl (length out)) Hloop n t t' Ht Hbody; [|lia|].
    + intros j [o s] [o2 s2] Hl Hb. simpl in *.
      destruct (input !! j); [|done]. simpl in Hb.
      destruct (store o j _) as [o3|] eqn:Hst; [|done]. simpl in Hb.
      apply store_inv in Hst as [? ->].
      destruct (_ !! j); [|done]. simplify_eq/=. by rewrite length_insert.
    + destruct t as [o s]. simpl in *.
      destruct (input !! n) as [x|] eqn:Hx; [|done]. simpl in Hbody.
      destruct (store o n _) as [o3|] eqn:Hst; [|done].
      apply store_inv in Hst as [? _]. apply lookup_lt_Some in Hx. lia.
  - intros [Hin Hout].
    destruct (STL_softmax_spec input out size Hin Hout) as (o' & -> & _).
    eauto.
Qed.
End KernelsMore.

(** ** The test runner: bounds and the failure report *)

(** An absolute value is not below zero. *)
Lemma abs_not_below_zero x : PrimFloat.ltb (PrimFloat.abs x) 0 = false.
Proof.
  rewrite FloatAxioms.ltb_spec, FloatAxioms.abs_spec.
  replace (FloatOps.Prim2SF 0) with (SpecFloat.S754_zero false) by reflexivity.
  by destruct (FloatOps.Prim2SF x) as [[]| [] | |[] m e].
Qed.

Section RunTestMore.
Import Tests.
Context {Model : Type}.
Variable reset : Model → Model.
Variable forward : list float → Model → Model * float.

Lemma abs_errors_abs ys yRef e :
  e ∈ abs_errors ys yRef → ∃ x, e = PrimFloat.abs x.
Proof.
  unfold abs_errors. intros (y & r & -> & _)%elem_of_zip_with. eauto.
Qed.

(** The second loop with its largest counted error: when some sample is
    counted, the maximum kept is the error of a counted sample. *)
Lemma count_errors_max threshold ys yRef :
  length ys ≤ length yRef →
  ∃ max_error,
    count_errors threshold (length ys) ys yRef =
    Some (count_exceeding threshold (abs_errors ys yRef), max_error) ∧
    (0 < count_exceeding threshold (abs_errors ys yRef) →
     max_error ∈ abs_errors ys yRef ∧ exceeds threshold max_error = true).
Proof.
  intros Hlen. unfold count_errors.
  loop_inv (λ n (st : nat * float),
    st.1 = count_exceeding threshold (abs_errors (take n ys) yRef) ∧
    (st.1 = 0 → st.2 = 0%float) ∧
    (0 < st.1 → st.2 ∈ abs_errors (take n ys) yRef ∧
                exceeds threshold st.2 = true)) st Hst HP.
  - simpl. split_and!; [done..|lia].
  - intros n [nErrs max_error] Hn (HnE & Hzero & Hpos). simpl in *.
    destruct (lookup_lt_is_Some_2 ys n) as [y Hy]; [lia|].
    destruct (lookup_lt_is_Some_2 yRef n) as [r Hr]; [lia|].
    rewrite Hy, Hr. simpl. rewrite (take_S_r _ _ _ Hy).
    rewrite (abs_errors_snoc _ _ _ r)
      by (by rewrite length_take_le by lia).
    rewrite count_exceeding_app. simpl.
    change (exceeds threshold (abs (y - r)))
      with (PrimFloat.ltb threshold (abs (y - r))).
    destruct (PrimFloat.ltb threshold (abs (y - r))) eqn:Hex;
      (eexists; split; [reflexivity|]); simpl.
    + split_and!; [lia|lia|]. intros _. unfold fmax.
      destruct (decide (nErrs = 0)) as [->|Hne].
      * rewrite Hzero by done. rewrite abs_not_below_zero.
        split; [|done]. apply elem_of_app. right. apply list_elem_of_here.
      * destruct Hpos as [Hin Hexc]; [lia|].
        destruct (PrimFloat.ltb (abs (y - r)) max_error).
        -- split; [|done]. apply elem_of_app. by left.
        -- split; [|done]. apply elem_of_app. right. apply list_elem_of_here.
    + split_and!; [lia|done|]. intros Hp.
      destruct Hpos as [Hin Hexc]; [lia|].
      split; [|done]. apply elem_of_app. by left.
  - destruct st as [nErrs max_error]. simpl in *. exists max_error.
    rewrite firstn_all in HP. destruct HP as (-> & _ & Hpos).
    by rewrite Hst.
Qed.

(** X19. When the reference sequence is shorter than the input
    sequence, the comparison loop reads [yRefData] past its end: [runTest]
    has no defined result. *)
Theorem runTest_short_reference test model xData yRefData :
  length yRefData < length xData →
  runTest reset forward test model xData yRefData = None.
Proof.
  intros Hlen. unfold runTest. rewrite run_model_outputs.
  pose proof (model_outputs_length forward (reset model) xData) as Hys.
  destruct (model_outputs forward (reset model) xData) as [m ys].
  simpl in *.
  destruct (count_errors (threshold test) (length xData) ys yRefData)
    as [[nErrs max_error]|] eqn:Hloop; [|done].
  exfalso. unfold count_errors in Hloop.
  loop_reaches (λ _ : nat * float, True) I Hloop (length yRefData)
    t t' Ht Hbody; [done|lia|].
  destruct t as [nErrs' max']. simpl in Hbody.
  destruct (ys !! length yRefData); [|done]. simpl in Hbody.
  rewrite lookup_ge_None_2 in Hbody by lia. done.
Qed.

(** X20. When the test fails, the maximum error it prints is the absolute
    difference of one of the samples and is above the threshold. *)
Theorem runTest_failure_report test model xData yRefData code out :
  length xData ≤ length yRefData →
  runTest reset forward test model xData yRefData = Some (code, out) →
  code ≠ 0%Z →
  let errs := abs_errors (model_outputs forward (reset model) xData).2
                yRefData in
  ∃ nErrs max_error,
    out = [Str "TESTING "; Str (name test); Str " IMPLEMENTATION..."; Endl;
           Str "FAIL: "; Num nErrs; Str " errors!"; Endl;
           Str "Maximum error: "; Flt max_error; Endl] ∧
    max_error ∈ errs ∧ exceeds (threshold test) max_error = true.
Proof.
  intros Hlen Hrun Hcode errs. unfold runTest in Hrun.
  rewrite run_model_outputs in Hrun.
  pose proof (model_outputs_length forward (reset model) xData) as Hys.
  subst errs.
  destruct (model_outputs forward (reset model) xData) as [m ys].
  simpl in *. rewrite <-Hys in Hrun.
  destruct (count_errors_max (threshold test) ys yRefData)
    as (max_error & E & Hmax); [lia|].
  rewrite E in Hrun. simpl in Hrun.
  destruct (decide (0 < _)) as [Hpos|]; simplify_eq/=.
  destruct (Hmax Hpos). eauto.
Qed.
End RunTestMore.

(** ** The test program: unknown names and the [all] run *)

(** The four registered tests, in the order a range-for visits them. *)
Lemma in_key_order_tests :
  ∃ conv1d dense gru lstm,
    Tests.tests !! "conv1d" = Some conv1d ∧
    Tests.tests !! "dense" = Some dense ∧
    Tests.tests !! "gru" = Some gru ∧
    Tests.tests !! "lstm" = Some lstm ∧
    Tests.in_key_order Tests.tests =
      [("conv1d", conv1d); ("dense", dense); ("gru", gru); ("lstm", lstm)].
Proof. do 4 eexists. split_and!; vm_compute; reflexivity. Qed.

Lemma tests_lookup_Some name test :
  Tests.tests !! name = Some test →
  name ∈ ["conv1d"; "dense"; "gru"; "lstm"].
Proof.
  unfold Tests.tests. intros Hl. apply elem_of_list_to_map_2 in Hl.
  repeat (apply elem_of_cons in Hl as [Hl|Hl];
          [simplify_eq; set_solver|]).
  by apply elem_of_nil in Hl.
Qed.

Lemma tests_lookup_None name :
  name ∉ ["conv1d"; "dense"; "gru"; "lstm"] → Tests.tests !! name = None.
Proof.
  intros Hname. destruct (Tests.tests !! name) as [test|] eqn:Hl; [|done].
  by apply tests_lookup_Some in Hl.
Qed.

Section MainMore.
Import Tests.
Context {Model : Type}.
Variable reset : Model → Model.
Variable forward : list float → Model → Model * float.
Variable parseJson : string → Model.
Variable loadFile : string → list float.
Variable util_test : list cout_item.
Variable model_test : Z * list cout_item.

#[local] Abbreviation main :=
  (main reset forward parseJson loadFile util_test model_test).
#[local] Abbreviation runTest_files :=
  (runTest_files reset forward parseJson loadFile).

(** X21. A test type that is neither an option of the program nor a key
    of the table is rejected: the program prints that the test was not
    found, runs nothing and returns 1. *)
Theorem main_unknown_test prog arg :
  arg ∉ ["--help"; "all"; "util"; "model";
         "conv1d"; "dense"; "gru"; "lstm"] →
  main [prog; arg] =
  Some (1%Z, [Str "Test: "; Str arg; Str " not found!"; Endl]).
Proof.
  intros Harg. unfold Tests.main. simpl.
  rewrite !(decide_False (P := arg = _)) by set_solver.
  rewrite tests_lookup_None
    by (intros Hin; apply Harg; by do 4 apply list_elem_of_further).
  rewrite decide_False by (by intros [? ?]). done.
Qed.

(** X22. The [all] run returns 0 exactly when [model_test()] returned 0
    and every registered test returned 0; it has a result only if every
    registered test has one. *)
Theorem main_all_verdict prog code out :
  main [prog; "all"] = Some (code, out) →
  (∀ name test, tests !! name = Some test → is_Some (runTest_files test)) ∧
  (code = 0%Z ↔
   model_test.1 = 0%Z ∧
   ∀ name test, tests !! name = Some test →
     ∃ o, runTest_files test = Some (0%Z, o)).
Proof.
  unfold Tests.main. simpl.
  destruct in_key_order_tests as (c & d & g & l & Hc & Hd & Hg & Hl & ->).
  simpl.
  destruct (runTest_files c) as [[rc oc]|] eqn:Ec; [|done]; simpl.
  destruct (runTest_files d) as [[rd od]|] eqn:Ed; [|done]; simpl.
  destruct (runTest_files g) as [[rg og]|] eqn:Eg; [|done]; simpl.
  destruct (runTest_files l) as [[rl ol]|] eqn:El; [|done]; simpl.
  intros Hmain. simplify_eq.
  assert (∀ name test, tests !! name = Some test →
    test = c ∨ test = d ∨ test = g ∨ test = l) as Hcases.
  { intros name test Ht. pose proof (tests_lookup_Some name test Ht) as Hn.
    repeat (apply elem_of_cons in Hn as [-> | Hn]; [simplify_eq; tauto|]).
    by apply elem_of_nil in Hn. }
  split.
  - intros name test Ht.
    destruct (Hcases name test Ht) as [-> | [-> | [-> | ->]]];
      rewrite ?Ec, ?Ed, ?Eg, ?El; eauto.
  - rewrite !Z.lor_eq_0_iff. split.
    + intros (((((_ & Hm) & ->) & ->) & ->) & ->). split; [done|].
      intros name test Ht.
      destruct (Hcases name test Ht) as [-> | [-> | [-> | ->]]]; eauto.
    + intros [Hm Hall].
      destruct (Hall _ _ Hc) as (? & ?), (Hall _ _ Hd) as (? & ?),
               (Hall _ _ Hg) as (? & ?), (Hall _ _ Hl) as (? & ?).
      simplify_eq. done.
Qed.
End MainMore.

(** * Concrete instances of the further properties *)

Lemma covers_two_rows {A : Type} (r0 r1 : list A) n :
  n ≤ length r0 → n ≤ length r1 → covers [r0; r1] 2 n.
Proof.
  intros H0 H1 i Hi. destruct i as [|[|i]]; [by exists r0|by exists r1|lia].
Qed.

(** A dense layer with two inputs and one output: the second weight read
    back. *)
Lemma Dense_getWeight_roundtrip_witness :
  let d := Dense.ctor (T:=Z) 2 1 in
  let w := [[2; 3]]%Z in
  Dense_wf d ∧ covers w 1 2 ∧
  ∃ d1, Dense.setWeights w d = Some d1 ∧
    Dense.getWeight d1 0 1 = Some 3%Z.
Proof.
  intros d w.
  assert (Dense_wf d) as Hwf by apply Dense_ctor_wf.
  assert (covers w 1 2) as Hcov by (apply covers_singleton; simpl; lia).
  split_and!; [done..|].
  destruct (Dense_getWeight_roundtrip d w Hwf Hcov) as (d1 & E & Hg).
  exists d1. split; [done|].
  destruct (Hg 0) as [_ Hw]; [simpl; lia|].
  destruct (Hw 1) as [_ ->]; [simpl; lia|]. reflexivity.
Defined.

(** The bias of the same layer read back. *)
Lemma Dense_getBias_roundtrip_witness :
  let d := Dense.ctor (T:=Z) 2 1 in
  length (Dense.subLayers d) = 1 ∧ 1 ≤ length [10%Z] ∧
  ∃ d2, Dense.setBias [10%Z] d = Some d2 ∧ Dense.getBias d2 0 = Some 10%Z.
Proof.
  intros d. split_and!; [reflexivity|simpl; lia|].
  destruct (Dense_getBias_roundtrip d [10%Z]) as (d2 & E & Hg);
    [reflexivity|simpl; lia|].
  exists d2. split; [done|].
  destruct (Hg 0) as (_ & -> & _); [simpl; lia|]. reflexivity.
Defined.

(** A row of one value is too short for a unit with two inputs. *)
Lemma Dense_setWeights_defined_iff_witness :
  let d := Dense.ctor (T:=Z) 2 1 in
  Dense_wf d ∧ Dense.setWeights [[2%Z]] d = None.
Proof.
  intros d.
  assert (Dense_wf d) as Hwf by apply Dense_ctor_wf.
  split; [done|]. apply eq_None_not_Some. intros Hdef.
  apply (Dense_setWeights_defined_iff d [[2%Z]] Hwf) in Hdef.
  destruct (Hdef 0) as (row & Hrow & Hlen); [simpl; lia|].
  simplify_eq/=. lia.
Defined.


(** Weights and biases of a two-input unit, in both orders. *)
Lemma Dense_setters_commute_witness :
  let d := Dense.ctor (T:=Z) 2 1 in
  let w := [[2; 3]]%Z in
  let b := [10%Z] in
  Dense_wf d ∧ covers w 1 2 ∧ 1 ≤ length b ∧
  Dense.setWeights w d ≫= Dense.setBias b =
  Dense.setBias b d ≫= Dense.setWeights w.
Proof.
  intros d w b.
  assert (Dense_wf d) as Hwf by apply Dense_ctor_wf.
  assert (covers w 1 2) as Hcov by (apply covers_singleton; simpl; lia).
  assert (1 ≤ length b) as Hb by (simpl; lia).
  split_and!; [done..|].
  exact (proj2 (Dense_setters_commute d w b Hwf Hcov Hb)).
Defined.

(** Two loads of the same unit. *)
Lemma Dense_setWeights_last_wins_witness :
  let d := Dense.ctor (T:=Z) 2 1 in
  let w1 := [[2; 3]]%Z in
  let w2 := [[7; 8; 9]]%Z in
  Dense_wf d ∧ covers w1 1 2 ∧ covers w2 1 2 ∧
  Dense.setWeights w1 d ≫= Dense.setWeights w2 = Dense.setWeights w2 d.
Proof.
  intros d w1 w2.
  assert (Dense_wf d) as Hwf by apply Dense_ctor_wf.
  assert (covers w1 1 2) as H1 by (apply covers_singleton; simpl; lia).
  assert (covers w2 1 2) as H2 by (apply covers_singleton; simpl; lia).
  split_and!; [done..|].
  exact (proj2 (Dense_setWeights_last_wins d w1 w2 Hwf H1 H2)).
Defined.

(** The three loaders of a 1-by-1 LSTM layer, pairwise in both orders. *)
Lemma LSTM_setters_commute_witness :
  let l := LSTM.ctor (T:=Z) 1 1 in
  let w := [[1; 2; 3; 4]]%Z in
  let u := [[5; 6; 7; 8]]%Z in
  let b := [9; 10; 11; 12]%Z in
  LSTM_wf l ∧ covers w 1 4 ∧ covers u 1 4 ∧ 4 ≤ length b ∧
  LSTM.setWVals w l ≫= LSTM.setUVals u = LSTM.setUVals u l ≫= LSTM.setWVals w ∧
  LSTM.setWVals w l ≫= LSTM.setBVals b = LSTM.setBVals b l ≫= LSTM.setWVals w ∧
  LSTM.setUVals u l ≫= LSTM.setBVals b = LSTM.setBVals b l ≫= LSTM.setUVals u.
Proof.
  intros l w u b.
  assert (LSTM_wf l) as Hwf by apply ctor_wf.
  assert (covers w 1 4) as HW by (apply covers_singleton; simpl; lia).
  assert (covers u 1 4) as HU by (apply covers_singleton; simpl; lia).
  assert (4 ≤ length b) as HB by (simpl; lia).
  split_and!; [done..| | |];
    destruct (LSTM_setters_commute l w u b Hwf HW HU HB)
      as (_ & Hwu & Hwb & Hub); done.
Defined.

(** Two loads of the input weights of a 1-by-1 LSTM layer. *)
Lemma LSTM_setWVals_last_wins_witness :
  let l := LSTM.ctor (T:=Z) 1 1 in
  let w1 := [[1; 2; 3; 4]]%Z in
  let w2 := [[5; 6; 7; 8]]%Z in
  LSTM_wf l ∧ covers w1 1 4 ∧ covers w2 1 4 ∧
  LSTM.setWVals w1 l ≫= LSTM.setWVals w2 = LSTM.setWVals w2 l.
Proof.
  intros l w1 w2.
  assert (LSTM_wf l) as Hwf by apply ctor_wf.
  assert (covers w1 1 4) as H1 by (apply covers_singleton; simpl; lia).
  assert (covers w2 1 4) as H2 by (apply covers_singleton; simpl; lia).
  split_and!; [done..|].
  exact (proj2 (LSTM_setWVals_last_wins l w1 w2 Hwf H1 H2)).
Defined.

(** A row of three values has no value for the fourth gate. *)
Lemma LSTM_setWVals_defined_iff_witness :
  let l := LSTM.ctor (T:=Z) 1 1 in
  LSTM_wf l ∧ 0 < LSTM.out_size l ∧ LSTM.setWVals [[1; 2; 3]]%Z l = None.
Proof.
  intros l.
  assert (LSTM_wf l) as Hwf by apply ctor_wf.
  assert (0 < LSTM.out_size l) as Hout by (simpl; lia).
  split_and!; [done..|]. apply eq_None_not_Some. intros Hdef.
  apply (LSTM_setWVals_defined_iff l [[1; 2; 3]]%Z Hwf Hout) in Hdef.
  destruct (Hdef 0) as (row & Hrow & Hlen); [simpl; lia|].
  simplify_eq/=. lia.
Defined.

(** A layer with a state: the reset layer is a fixed point of [reset]. *)
Lemma LSTM_reset_idempotent_witness :
  let l := LSTM.with_state (LSTM.ctor (T:=Z) 1 1) [7%Z] [8%Z] in
  let lr := LSTM.ctor (T:=Z) 1 1 in
  LSTM.reset l = Some lr ∧ LSTM.reset lr = Some lr ∧
  LSTM.ht1 lr !! 0 = Some 0%Z.
Proof.
  intros l lr.
  assert (LSTM.reset l = Some lr) as Hr by reflexivity.
  split; [done|].
  destruct (LSTM_reset_idempotent l lr Hr) as (Hrr & _ & Hz).
  split; [done|]. by destruct (Hz 0); [simpl; lia|].
Defined.

(** A GRU layer with one input and two units: the getters at the flat
    index 3, inside the reset gate. *)
Lemma GRU_getters_roundtrip_off_boundary_witness :
  let l := GRU.ctor (T:=Z) 1 2 in
  let wVals := [[1; 2; 3; 4; 5; 6]]%Z in
  let uVals := [[1; 2; 3; 4; 5; 6]; [7; 8; 9; 10; 11; 12]]%Z in
  let bVals := [[1; 2; 3; 4; 5; 6]; [7; 8; 9; 10; 11; 12]]%Z in
  GRU_wf l ∧ covers wVals 1 6 ∧ covers uVals 2 6 ∧ covers bVals 2 6 ∧
  ∃ lW lU lB,
    GRU.setWVals wVals l = Some lW ∧ GRU.setUVals uVals l = Some lU ∧
    GRU.setBVals bVals l = Some lB ∧
    GRU.getWVal lW 0 3 = Some 4%Z ∧ GRU.getUVal lU 1 3 = Some 10%Z ∧
    GRU.getBVal lB 1 5 = Some 12%Z.
Proof.
  intros l wVals uVals bVals.
  assert (GRU_wf l) as Hwf by apply GRU_ctor_wf.
  assert (covers wVals 1 6) as HW by (apply covers_singleton; simpl; lia).
  assert (covers uVals 2 6) as HU by (apply covers_two_rows; simpl; lia).
  assert (covers bVals 2 6) as HB by (apply covers_two_rows; simpl; lia).
  split_and!; [done..|].
  destruct (GRU_getters_roundtrip_off_boundary l wVals uVals bVals
              Hwf HW HU HB) as (lW & lU & lB & EW & EU & EB & Hall).
  exists lW, lU, lB. split_and!; [done..| | |].
  - destruct (Hall 3) as (Hw & _); [simpl; lia..|].
    destruct (Hw 0) as [_ ->]; [simpl; lia|]. reflexivity.
  - destruct (Hall 3) as (_ & Hu & _); [simpl; lia..|].
    destruct (Hu 1) as [_ ->]; [simpl; lia|]. reflexivity.
  - destruct (Hall 5) as (_ & _ & Hb); [simpl; lia..|].
    destruct (Hb 1) as [_ ->]; [lia|]. reflexivity.
Defined.

(** The flat index 100 of a layer with two units. *)
Lemma GRU_getters_any_index_witness :
  let l := GRU.ctor (T:=Z) 1 2 in
  GRU_wf l ∧ 0 < GRU.out_size l ∧
  is_Some (GRU.getWVal l 0 100) ∧
  GRU.getUVal l 1 (100 + 2) = GRU.getUVal l 1 100.
Proof.
  intros l.
  assert (GRU_wf l) as Hwf by apply GRU_ctor_wf.
  assert (0 < GRU.out_size l) as Hout by (simpl; lia).
  split_and!; [done..| |];
    destruct (GRU_getters_any_index l 100 Hwf Hout) as (Hw & _ & _ & Hper).
  - apply Hw. simpl. lia.
  - destruct (Hper ltac:(simpl; lia) 1) as (_ & Hu & _). exact Hu.
Defined.

(** A fresh layer with two units, at the flat index 7. *)
Lemma GRU_fresh_getters_zero_witness :
  0 < 2 ∧ GRU.getWVal (GRU.ctor (T:=Z) 1 2) 0 7 = Some 0%Z.
Proof.
  split; [lia|].
  destruct (GRU_fresh_getters_zero (T:=Z) 1 2 0 7) as (Hw & _); [lia|].
  apply Hw. lia.
Defined.

(** Three values with batches of two lanes: one batch and a remainder of
    one. *)
Lemma XSIMD_vCopy_copies_witness :
  0 < 2 ∧ 3 ≤ length [1; 2; 3]%Z ∧ 3 ≤ length [9; 9; 9; 9]%Z ∧
  XSIMD.vCopy 2 [1; 2; 3]%Z [9; 9; 9; 9]%Z 3 = Some [1; 2; 3; 9]%Z.
Proof.
  split_and!; [lia|simpl; lia..|].
  apply (XSIMD_vCopy_copies (T:=Z) 2 [1; 2; 3]%Z [9; 9; 9; 9]%Z 3);
    simpl; lia.
Defined.

(** The same buffers through [tanh], the sign in integer arithmetic. *)
Lemma XSIMD_tanh_elementwise_witness :
  0 < 2 ∧ 3 ≤ length [-5; 0; 3]%Z ∧ 3 ≤ length [9; 9; 9; 9]%Z ∧
  XSIMD.tanh 2 [-5; 0; 3]%Z [9; 9; 9; 9]%Z 3 = Some [-1; 0; 1; 9]%Z.
Proof.
  split_and!; [lia|simpl; lia..|].
  apply (XSIMD_tanh_elementwise (H:=Z_Scalar) 2 [-5; 0; 3]%Z [9; 9; 9; 9]%Z 3);
    simpl; lia.
Defined.

(** Three values with batches of four lanes. *)
Lemma softmax_short_input_witness :
  3 < 4 ∧
  XSIMD.softmax 4 [0; 1; 2]%Z [9; 9; 9; 9]%Z 3 =
  STL.softmax [0; 1; 2]%Z [9; 9; 9; 9]%Z 3.
Proof.
  split; [lia|].
  apply (softmax_short_input (H:=Z_Scalar) 4 [0; 1; 2]%Z [9; 9; 9; 9]%Z 3).
  lia.
Defined.

(** Two inputs against a reference of one value. *)
Lemma runTest_short_reference_witness :
  ∃ test, Tests.tests !! "lstm" = Some test ∧
    length [0.5]%float < length [0.5; 0.25]%float ∧
    Tests.runTest (λ m, m) echo_forward test () [0.5; 0.25]%float
      [0.5]%float = None.
Proof.
  eexists. split; [reflexivity|]. split; [simpl; lia|].
  apply (runTest_short_reference (λ m : unit, m) echo_forward _ ()
           [0.5; 0.25]%float [0.5]%float).
  simpl. lia.
Defined.

(** The [lstm] configuration on a model that returns its input, with a
    reference that differs by one in the second sample. *)
Lemma runTest_failure_report_witness :
  ∃ test, Tests.tests !! "lstm" = Some test ∧
    Tests.runTest (λ m, m) echo_forward test () [0.5; 0.25]%float
      [0.5; 1.25]%float =
    Some (1%Z, [Tests.Str "TESTING "; Tests.Str "LSTM";
                Tests.Str " IMPLEMENTATION..."; Tests.Endl;
                Tests.Str "FAIL: "; Tests.Num 1; Tests.Str " errors!";
                Tests.Endl;
                Tests.Str "Maximum error: "; Tests.Flt 1%float; Tests.Endl]) ∧
    exceeds (Tests.threshold test) 1%float = true.
Proof.
  eexists. split; [reflexivity|].
  match goal with
  | |- ?run = Some (?code, ?out) ∧ _ =>
      assert (run = Some (code, out)) as Hrun by reflexivity
  end.
  split; [exact Hrun|].
  destruct (runTest_failure_report (λ m : unit, m) echo_forward _ ()
              [0.5; 0.25]%float [0.5; 1.25]%float _ _
              ltac:(simpl; lia) Hrun ltac:(done))
    as (nErrs & max_error & Hout & _ & Hex).
  apply (f_equal (λ o, match o !! 9 with
                       | Some (Tests.Flt x) => x
                       | _ => 0%float
                       end)) in Hout.
  simpl in Hout. rewrite Hout. exact Hex.
Defined.

(** The test type [conv2d] is not registered. *)
Lemma main_unknown_test_witness :
  ("conv2d" ∉ ["--help"; "all"; "util"; "model";
               "conv1d"; "dense"; "gru"; "lstm"]) ∧
  Tests.main (λ m : unit, m) echo_forward (λ _, ()) (λ _, []) []
    (0%Z, []) ["rtneural_tests"; "conv2d"] =
  Some (1%Z, [Tests.Str "Test: "; Tests.Str "conv2d";
              Tests.Str " not found!"; Tests.Endl]).
Proof.
  assert ("conv2d" ∉ ["--help"; "all"; "util"; "model";
                      "conv1d"; "dense"; "gru"; "lstm"]) as Harg.
  { intros Hin.
    repeat (apply elem_of_cons in Hin as [Hin|Hin]; [discriminate|]).
    by apply elem_of_nil in Hin. }
  split; [done|].
  exact (main_unknown_test (λ m : unit, m) echo_forward (λ _, ()) (λ _, [])
           [] (0%Z, []) "rtneural_tests" "conv2d" Harg).
Defined.

(** The [all] run with empty data files and a [model_test()] that returns
    0: every registered test returns 0. *)
Lemma main_all_verdict_witness :
  let success name :=
    [Tests.Str "TESTING "; Tests.Str name; Tests.Str " IMPLEMENTATION...";
     Tests.Endl; Tests.Str "SUCCESS"; Tests.Endl] in
  Tests.main (λ m : unit, m) echo_forward (λ _, ()) (λ _, []) []
    (0%Z, []) ["rtneural_tests"; "all"] =
  Some (0%Z, success "CONV1D" ++ success "DENSE" ++ success "GRU" ++
             success "LSTM") ∧
  ∃ test o, Tests.tests !! "gru" = Some test ∧
    Tests.runTest_files (λ m : unit, m) echo_forward (λ _, ())
      (λ _, []) test = Some (0%Z, o).
Proof.
  intros success.
  match goal with
  | |- ?run = ?res ∧ _ => assert (run = res) as Hrun by (by vm_compute)
  end.
  split; [exact Hrun|].
  destruct (main_all_verdict (λ m : unit, m) echo_forward (λ _, ())
              (λ _, []) [] (0%Z, []) "rtneural_tests" 0%Z _ Hrun)
    as [_ [Hzero _]].
  destruct (Hzero eq_refl) as [_ Hall].
  destruct in_key_order_tests as (_ & _ & gru & _ & _ & _ & Hgru & _).
  destruct (Hall "gru" gru Hgru) as [o Ho].
  exists gru, o. split; [exact Hgru|exact Ho].
Defined.
